(** * env-scream-detector: a shallow embedding of [src/env-scream-detector.js]

    The detector scans a log text with five regular expressions, collects the
    captured names (upper-cased) in a [Set], and sorts them into [missing] and
    [misconfigured] against the keys declared in the [.env] file of the
    working directory.

    JavaScript strings are sequences of UTF-16 code units; they are modelled
    as [list N].  The regular expressions carry no [u] flag, so the matcher
    works on code units, as the language definition prescribes.

    Layout: strings and arrays; regular expressions and the five patterns;
    files, console and process as a small trace monad; then, over an
    arbitrary host table for non-ASCII upper-casing, the matcher, [exec],
    [detectScreams], [autopsy], [analyze] and the command line, followed by
    the theorems.  Closed instances on concrete inputs come last. *)

From Stdlib Require Import String Ascii.
From Stdlib Require Import List NArith Arith Lia Bool Permutation.
Import ListNotations.

Local Open Scope N_scope.

(** ** Strings *)

Definition jsstring := list N.

(** An ASCII literal of the source as a sequence of code units. *)
Definition js (s : string) : jsstring := map N_of_ascii (list_ascii_of_string s).

Fixpoint strEq (a b : jsstring) : bool :=
  match a, b with
  | [], [] => true
  | x :: a', y :: b' => (x =? y) && strEq a' b'
  | _, _ => false
  end.

(** [String.prototype.startsWith] and [String.prototype.includes]. *)
Fixpoint startsWith (s prefix : jsstring) {struct prefix} : bool :=
  match prefix, s with
  | [], _ => true
  | p :: prefix', c :: s' => (p =? c) && startsWith s' prefix'
  | _ :: _, [] => false
  end.

Fixpoint strIncludes (s needle : jsstring) : bool :=
  startsWith s needle ||
  match s with
  | [] => false
  | _ :: s' => strIncludes s' needle
  end.

(** [String.prototype.split] with a separator of one code unit, which is how
    the source calls it (['\n'] and ['=']).  The result is never empty. *)
Fixpoint split (sep : N) (s : jsstring) : list jsstring :=
  match s with
  | [] => [[]]
  | c :: s' =>
      if c =? sep then [] :: split sep s'
      else match split sep s' with
           | piece :: pieces => (c :: piece) :: pieces
           | [] => [[c]]
           end
  end.

(** WhiteSpace and LineTerminator code units, the ones [trim] removes. *)
Definition isWhiteSpace (c : N) : bool :=
  (c =? 9) || (c =? 11) || (c =? 12) || (c =? 32) || (c =? 160) ||
  (c =? 5760) || ((8192 <=? c) && (c <=? 8202)) || (c =? 8239) ||
  (c =? 8287) || (c =? 12288) || (c =? 65279).

Definition isLineTerminator (c : N) : bool :=
  (c =? 10) || (c =? 13) || (c =? 8232) || (c =? 8233).

Definition isTrimmed (c : N) : bool := isWhiteSpace c || isLineTerminator c.

Fixpoint dropWhile (f : N -> bool) (s : jsstring) : jsstring :=
  match s with
  | [] => []
  | c :: s' => if f c then dropWhile f s' else s
  end.

Definition trim (s : jsstring) : jsstring :=
  rev (dropWhile isTrimmed (rev (dropWhile isTrimmed s))).

Definition asciiUpper (c : N) : N :=
  if (97 <=? c) && (c <=? 122) then c - 32 else c.

(** [Array.prototype.includes] on an array of strings. *)
Definition arrIncludes (arr : list jsstring) (x : jsstring) : bool :=
  existsb (strEq x) arr.

(** A [Set] of strings keeps insertion order; [Array.from] reads it back. *)
Definition setAdd (x : jsstring) (set : list jsstring) : list jsstring :=
  if arrIncludes set x then set else set ++ [x].

(** ** Regular expressions *)

Inductive charset :=
| CsChar (c : N)
| CsClass (ranges : list (N * N))
| CsDot.

Inductive regex :=
| REmpty
| RChar (cs : charset)
| RSeq (r1 r2 : regex)
| RStar (r : regex)
| RPlus (r : regex)
| RGroup (n : nat) (r : regex).

Fixpoint lit (s : jsstring) : regex :=
  match s with
  | [] => REmpty
  | c :: s' => RSeq (RChar (CsChar c)) (lit s')
  end.

Fixpoint rseq (rs : list regex) : regex :=
  match rs with
  | [] => REmpty
  | r :: rs' => RSeq r (rseq rs')
  end.

Definition rangeMembers (r : N * N) : list N :=
  map (fun k => fst r + N.of_nat k) (seq 0 (N.to_nat (snd r + 1 - fst r))).

Definition classMembers (ranges : list (N * N)) : list N :=
  flat_map rangeMembers ranges.

(** The matcher's state: the input still to read and the captures so far
    (most recent first). *)
Record MState := mkMState { rest : jsstring; caps : list (nat * jsstring) }.

Definition Continuation := MState -> option MState.

Fixpoint getCapture (n : nat) (cs : list (nat * jsstring)) : option jsstring :=
  match cs with
  | [] => None
  | (m, v) :: cs' => if Nat.eqb m n then Some v else getCapture n cs'
  end.

Fixpoint groupCount (r : regex) : nat :=
  match r with
  | REmpty | RChar _ => 0
  | RSeq r1 r2 => (groupCount r1 + groupCount r2)%nat
  | RStar r' | RPlus r' => groupCount r'
  | RGroup _ r' => S (groupCount r')
  end.

Record RegExp := mkRegExp {
  source : regex;
  global : bool;
  ignoreCase : bool;
  lastIndex : nat
}.

Definition setLastIndex (R : RegExp) (i : nat) : RegExp :=
  mkRegExp (source R) (global R) (ignoreCase R) i.

(** What [exec] returns when it is not [null]: element 0 is the matched text,
    element [n] the capture of group [n] ([None] is [undefined]). *)
Definition MatchArray := list (option jsstring).

Definition matchGet (m : MatchArray) (n : nat) : option jsstring :=
  nth n m None.

(** Truthiness of [match[n]]: defined and not the empty string. *)
Definition truthy (v : option jsstring) : bool :=
  match v with
  | Some (_ :: _) => true
  | _ => false
  end.

(** ** The detector *)

(** The class [[A-Z_]] and the capturing group [([A-Z_]+)]. *)
Definition upperOrUnderscore : charset := CsClass [(65, 90); (95, 95)].

Definition nameGroup : regex := RGroup 1 (RPlus (RChar upperOrUnderscore)).

(** [/process\.env\.([A-Z_]+)/g] *)
Definition pattern1 : RegExp :=
  mkRegExp (rseq [lit (js "process.env."); nameGroup]) true false 0.

(** [/env\.([A-Z_]+)/g] *)
Definition pattern2 : RegExp :=
  mkRegExp (rseq [lit (js "env."); nameGroup]) true false 0.

(** [/Cannot read propert.+of undefined.*env\.([A-Z_]+)/gi] *)
Definition pattern3 : RegExp :=
  mkRegExp
    (rseq [lit (js "Cannot read propert"); RPlus (RChar CsDot);
           lit (js "of undefined"); RStar (RChar CsDot);
           lit (js "env."); nameGroup])
    true true 0.

(** [/([A-Z_]+) is not defined/g] *)
Definition pattern4 : RegExp :=
  mkRegExp (rseq [nameGroup; lit (js " is not defined")]) true false 0.

(** [/Missing ([A-Z_]+)/g] *)
Definition pattern5 : RegExp :=
  mkRegExp (rseq [lit (js "Missing "); nameGroup]) true false 0.

(** An instance is the array of its five [RegExp] objects; their [lastIndex]
    is the only state that changes. *)
Record EnvScreamDetector := mkDetector { envPatterns : list RegExp }.

(** [constructor()] *)
Definition newDetector : EnvScreamDetector :=
  mkDetector [pattern1; pattern2; pattern3; pattern4; pattern5].

(** The instance one gets when the first pattern is taken off the list. *)
Definition detectorWithoutPattern1 : EnvScreamDetector :=
  mkDetector [pattern2; pattern3; pattern4; pattern5].

(** The instance with every [lastIndex] back at 0. *)
Definition resetAll (d : EnvScreamDetector) : EnvScreamDetector :=
  mkDetector (map (fun R => setLastIndex R 0) (envPatterns d)).

(** ** Files, the console and the process *)

Inductive FsEntry :=
| File (content : jsstring)
| Unreadable.

Record World := mkWorld {
  argv : list jsstring;
  cwd : jsstring;
  fs : jsstring -> option FsEntry
}.

Inductive Event :=
| ConsoleLog (line : jsstring)
| ExistsSync (path : jsstring)
| ReadFileSync (path : jsstring).

Inductive Outcome (A : Type) :=
| Return (a : A)
| Throw (path : jsstring)
| Exit (status : nat)
| Unfinished.

Arguments Return {A} a.
Arguments Throw {A} path.
Arguments Exit {A} status.
Arguments Unfinished {A}.

(** A computation reads the world and yields what it did, in order, and how
    it ended. *)
Definition IO (A : Type) := World -> list Event * Outcome A.

Definition ret {A} (a : A) : IO A := fun _ => ([], Return a).

Definition bind {A B} (m : IO A) (f : A -> IO B) : IO B :=
  fun w =>
    match m w with
    | (t1, Return a) => let (t2, o) := f a w in (t1 ++ t2, o)
    | (t1, Throw p) => (t1, Throw p)
    | (t1, Exit n) => (t1, Exit n)
    | (t1, Unfinished) => (t1, Unfinished)
    end.

Notation "x <- m ;; f" := (bind m (fun x => f))
  (at level 61, m at next level, right associativity).
Notation "m ;; f" := (bind m (fun _ => f))
  (at level 61, right associativity).

Definition consoleLog (line : jsstring) : IO unit :=
  fun _ => ([ConsoleLog line], Return tt).

Definition existsSync (path : jsstring) : IO bool :=
  fun w => ([ExistsSync path],
            Return match fs w path with Some _ => true | None => false end).

Definition readFileSync (path : jsstring) : IO jsstring :=
  fun w => ([ReadFileSync path],
            match fs w path with
            | Some (File content) => Return content
            | _ => Throw path
            end).

Definition processExit {A} (status : nat) : IO A := fun _ => ([], Exit status).

Definition processCwd : IO jsstring := fun w => ([], Return (cwd w)).

Definition processArgv : IO (list jsstring) := fun w => ([], Return (argv w)).

(** The computation ends within the bounds of the model, in every world:
    it returns, throws or exits. *)
Definition Finishes {A : Type} (m : IO A) : Prop :=
  forall w, snd (m w) <> Unfinished.

(** [path.join(dir, name)] for a normalized absolute [dir], which is what
    [process.cwd()] returns, and a plain file name (POSIX separator). *)
Definition pathJoin (dir name : jsstring) : jsstring :=
  match rev dir with
  | 47 :: _ => dir ++ name
  | _ => dir ++ 47 :: name
  end.

Record AutopsyResult := mkAutopsy {
  missing : list jsstring;
  misconfigured : list jsstring
}.

(** The two [filter] calls of [autopsy] (lines 55 to 64). *)
Definition classify (suspects existingVars : list jsstring) : AutopsyResult :=
  let missing :=
    filter (fun suspect => negb (arrIncludes existingVars suspect)) suspects in
  let misconfigured :=
    filter (fun suspect => arrIncludes existingVars suspect) suspects in
  mkAutopsy missing misconfigured.

(** [l] is [l1] and [l2] shuffled together, each in its own order. *)
Inductive Interleaved {A : Type} : list A -> list A -> list A -> Prop :=
| il_nil : Interleaved [] [] []
| il_left x l1 l2 l : Interleaved l1 l2 l -> Interleaved (x :: l1) l2 (x :: l)
| il_right x l1 l2 l : Interleaved l1 l2 l -> Interleaved l1 (x :: l2) (x :: l).

(** A line whose first code unit after leading white space is [#]. *)
Definition isCommentLine (line : jsstring) : bool :=
  match dropWhile isTrimmed line with
  | c :: _ => c =? 35
  | [] => false
  end.

(** ** The report of [analyze] (lines 85 to 98), as the lines it prints *)

Definition reportLines (result : AutopsyResult) : list jsstring :=
  [55357 :: 56589 :: js " ENV SCREAM ANALYSIS REPORT"; repeat 61 40] ++
  (if (0 <? length (missing result))%nat then
     (10 :: 55357 :: 57000 :: js " MISSING VARIABLES (add to .env):") ::
     map (fun varName => js "  - " ++ varName ++ js "=your_value_here")
       (missing result)
   else []) ++
  (if (0 <? length (misconfigured result))%nat then
     (10 :: 9888 :: 65039 :: js "  MISCONFIGURED (check values in .env):") ::
     map (fun varName => js "  - " ++ varName) (misconfigured result)
   else []) ++
  [10 :: 55357 :: 56481 ::
     js " Remember: Environment variables should whisper, not scream."].

(** A log in which no pattern has its literal text: no [env.] in any letter
    case, no [ is not defined], no [Missing ]. *)
Definition quietLog (logContent : jsstring) : bool :=
  negb (strIncludes (map asciiUpper logContent) (js "ENV.")) &&
  negb (strIncludes logContent (js " is not defined")) &&
  negb (strIncludes logContent (js "Missing ")).

(** ** Concrete hosts and worlds for the examples *)

(** A host whose table leaves non-ASCII text as it is.  The examples run on
    ASCII text, where no host consults its table. *)
Definition plainHost : jsstring -> jsstring := fun run => run.

(** Run without arguments in [/app], where there is no file at all. *)
Definition emptyWorld : World :=
  mkWorld [js "node"; js "env-scream-detector.js"] (js "/app") (fun _ => None).

(** [/app/.env] holds the single line [# NAME=value]. *)
Definition commentedWorld : World :=
  mkWorld [js "node"; js "env-scream-detector.js"; js "error.log"] (js "/app")
    (fun path =>
       if strEq path (js "/app/.env") then Some (File (js "# NAME=value"))
       else None).

(** [/app/error.log] names two variables, [/app/.env] declares one. *)
Definition reportWorld : World :=
  mkWorld [js "node"; js "env-scream-detector.js"; js "/app/error.log"]
    (js "/app")
    (fun path =>
       if strEq path (js "/app/error.log") then
         Some (File (js "Missing DATABASE_URL; process.env.API_KEY is undefined"))
       else if strEq path (js "/app/.env") then
         Some (File (js " database_url = postgres://x"))
       else None).

(** The same log, but [/app/.env] cannot be read. *)
Definition brokenEnvWorld : World :=
  mkWorld [js "node"; js "env-scream-detector.js"; js "/app/error.log"]
    (js "/app")
    (fun path =>
       if strEq path (js "/app/error.log") then
         Some (File (js "Missing DATABASE_URL; process.env.API_KEY is undefined"))
       else if strEq path (js "/app/.env") then Some Unreadable
       else None).

(** The log is there but cannot be read. *)
Definition brokenLogWorld : World :=
  mkWorld [js "node"; js "env-scream-detector.js"; js "/app/error.log"]
    (js "/app")
    (fun path =>
       if strEq path (js "/app/error.log") then Some Unreadable else None).

(** A log without any of the texts the patterns look for. *)
Definition quietWorld : World :=
  mkWorld [js "node"; js "env-scream-detector.js"; js "/app/error.log"]
    (js "/app")
    (fun path =>
       if strEq path (js "/app/error.log") then
         Some (File (js "server started on port 8080"))
       else if strEq path (js "/app/.env") then Some (File (js "PORT=8080"))
       else None).

(** ** The host-dependent part *)

Section Host.

(** The host's Unicode upper-casing of a run of non-ASCII code units.  The
    table is not part of the repository, and no theorem below assumes
    anything about it. *)
Variable unicodeUpper : jsstring -> jsstring.

Definition flushRun (run : jsstring) : jsstring :=
  match run with
  | [] => []
  | _ => unicodeUpper run
  end.

Fixpoint upperFrom (run s : jsstring) : jsstring :=
  match s with
  | [] => flushRun run
  | c :: s' =>
      if c <? 128 then flushRun run ++ asciiUpper c :: upperFrom [] s'
      else upperFrom (run ++ [c]) s'
  end.

(** [String.prototype.toUpperCase]: ASCII letters are mapped one by one,
    every maximal run of non-ASCII code units goes through the host's table. *)
Definition toUpperCase (s : jsstring) : jsstring := upperFrom [] s.

(** Canonicalize of the language definition, for a pattern without [u]. *)
Definition canonicalize (ch : N) : N :=
  if ch <? 128 then asciiUpper ch
  else match unicodeUpper [ch] with
       | [cu] => if cu <? 128 then ch else cu
       | _ => ch
       end.

Definition canon (ic : bool) (ch : N) : N :=
  if ic then canonicalize ch else ch.

Definition charMatches (ic : bool) (cs : charset) (ch : N) : bool :=
  match cs with
  | CsChar c => canon ic c =? canon ic ch
  | CsClass ranges =>
      existsb (fun a => canon ic a =? canon ic ch) (classMembers ranges)
  | CsDot => negb (isLineTerminator ch)
  end.

(** RepeatMatcher with min = 0 and no upper bound: greedy, and an iteration
    that consumes nothing is refused.  [n] bounds the iterations by the
    length of the input left. *)
Fixpoint repeatMatcher (m : MState -> Continuation -> option MState)
    (n : nat) (x : MState) (k : Continuation) : option MState :=
  match n with
  | O => k x
  | S n' =>
      match m x (fun y =>
                   if (length (rest y) <? length (rest x))%nat
                   then repeatMatcher m n' y k
                   else None) with
      | Some z => Some z
      | None => k x
      end
  end.

(** The backtracking matcher, in continuation-passing style.  (A group
    inside a repetition would have its capture cleared at each iteration;
    the detector has no such pattern, and the clearing is left out.) *)
Fixpoint matcher (ic : bool) (r : regex) (x : MState) (k : Continuation)
    : option MState :=
  match r with
  | REmpty => k x
  | RChar cs =>
      match rest x with
      | ch :: s' =>
          if charMatches ic cs ch then k (mkMState s' (caps x)) else None
      | [] => None
      end
  | RSeq r1 r2 => matcher ic r1 x (fun y => matcher ic r2 y k)
  | RStar r' => repeatMatcher (matcher ic r') (length (rest x)) x k
  | RPlus r' =>
      matcher ic r' x
        (fun y => repeatMatcher (matcher ic r') (length (rest y)) y k)
  | RGroup n r' =>
      matcher ic r' x
        (fun y =>
           k (mkMState (rest y)
                ((n, firstn (length (rest x) - length (rest y)) (rest x))
                   :: caps y)))
  end.

(** One attempt at the start of [s], then the next start position: the loop
    of RegExpBuiltinExec.  Returns the number of code units skipped and the
    final state. *)
Fixpoint scan (ic : bool) (r : regex) (s : jsstring) : option (nat * MState) :=
  match matcher ic r (mkMState s []) Some with
  | Some y => Some (O, y)
  | None =>
      match s with
      | [] => None
      | _ :: s' =>
          match scan ic r s' with
          | Some (i, y) => Some (S i, y)
          | None => None
          end
      end
  end.

Definition matchArray (r : regex) (matched : jsstring) (y : MState)
    : MatchArray :=
  Some matched :: map (fun n => getCapture n (caps y)) (seq 1 (groupCount r)).

(** [RegExp.prototype.exec]: the result and the object with its new
    [lastIndex]. *)
Definition exec (R : RegExp) (str : jsstring) : option MatchArray * RegExp :=
  let li := if global R then lastIndex R else O in
  let fail := (None, if global R then setLastIndex R O else R) in
  if (length str <? li)%nat then fail
  else
    match scan (ignoreCase R) (source R) (skipn li str) with
    | None => fail
    | Some (i, y) =>
        let start := (li + i)%nat in
        let e := (length str - length (rest y))%nat in
        (Some (matchArray (source R) (firstn (e - start) (skipn start str)) y),
         if global R then setLastIndex R e else R)
    end.

(** The body of the [while] loop: [if (match[1]) suspects.add(...)]. *)
Definition addSuspect (m : MatchArray) (suspects : list jsstring)
    : list jsstring :=
  if truthy (matchGet m 1) then
    match matchGet m 1 with
    | Some name => setAdd (toUpperCase name) suspects
    | None => suspects
    end
  else suspects.

(** [while ((match = pattern.exec(logContent)) !== null) { ... }].  [None]
    stands for a loop that has not ended after [fuel] calls of [exec]. *)
Fixpoint whileExec (fuel : nat) (pattern : RegExp) (logContent : jsstring)
    (suspects : list jsstring) : option (list jsstring * RegExp) :=
  match fuel with
  | O => None
  | S fuel' =>
      match exec pattern logContent with
      | (None, pattern') => Some (suspects, pattern')
      | (Some m, pattern') =>
          whileExec fuel' pattern' logContent (addSuspect m suspects)
      end
  end.

(** [this.envPatterns.forEach(pattern => { ... })] *)
Fixpoint forEachPattern (fuel : nat) (patterns : list RegExp)
    (logContent : jsstring) (suspects : list jsstring)
    : option (list jsstring * list RegExp) :=
  match patterns with
  | [] => Some (suspects, [])
  | pattern :: patterns' =>
      match whileExec fuel pattern logContent suspects with
      | None => None
      | Some (suspects', pattern') =>
          match forEachPattern fuel patterns' logContent suspects' with
          | None => None
          | Some (suspects'', done) => Some (suspects'', pattern' :: done)
          end
      end
  end.

Definition detectScreamsFuel (fuel : nat) (this : EnvScreamDetector)
    (logContent : jsstring) : option (list jsstring * EnvScreamDetector) :=
  match forEachPattern fuel (envPatterns this) logContent [] with
  | None => None
  | Some (suspects, patterns) => Some (suspects, mkDetector patterns)
  end.

(** [detectScreams(logContent)]: the array of suspects and the instance
    after the call.  Every loop is given one call of [exec] per code unit of
    the log and one more; [detectScreams_fuel] below shows that the five
    patterns never need as many, and that more changes nothing. *)
Definition detectScreams (this : EnvScreamDetector) (logContent : jsstring)
    : option (list jsstring * EnvScreamDetector) :=
  detectScreamsFuel (S (length logContent)) this logContent.

(** The keys read from the content of [.env] (lines 48 to 51). *)
Definition existingVarsOf (envContent : jsstring) : list jsstring :=
  map (fun line => toUpperCase (trim (nth 0 (split 61 line) [])))
    (filter (fun line => strIncludes line (js "="))
       (split 10 envContent)).

Definition envPathOf (w : World) : jsstring := pathJoin (cwd w) (js ".env").

(** [autopsy(suspects)] *)
Definition autopsy (suspects : list jsstring) : IO AutopsyResult :=
  dir <- processCwd ;;
  let envPath := pathJoin dir (js ".env") in
  present <- existsSync envPath ;;
  existingVars <-
    (if present : bool then
       envContent <- readFileSync envPath ;;
       ret (existingVarsOf envContent)
     else ret []) ;;
  ret (classify suspects existingVars).

Fixpoint forEachLog (lines : list jsstring) : IO unit :=
  match lines with
  | [] => ret tt
  | line :: lines' => consoleLog line ;; forEachLog lines'
  end.

Definition unfinished {A} : IO A := fun _ => ([], Unfinished).

(** [analyze(logFile)].  The pictographs of the messages are written as
    their UTF-16 code units. *)
Definition analyze (this : EnvScreamDetector) (logFile : jsstring) : IO unit :=
  found <- existsSync logFile ;;
  if negb found then
    consoleLog (10060 :: js " Log file not found: " ++ logFile) ;;
    consoleLog (js "Tip: Try screaming louder next time.")
  else
    logContent <- readFileSync logFile ;;
    match detectScreams this logContent with
    | None => unfinished
    | Some (suspects, _) =>
        if (length suspects =? 0)%nat then
          consoleLog
            (9989 :: js " No screams detected. Either perfect code or silent suffering.")
        else
          result <- autopsy suspects ;;
          consoleLog (55357 :: 56589 :: js " ENV SCREAM ANALYSIS REPORT") ;;
          consoleLog (repeat 61 40) ;;
          (if (0 <? length (missing result))%nat then
             consoleLog
               (10 :: 55357 :: 57000 :: js " MISSING VARIABLES (add to .env):") ;;
             forEachLog
               (map (fun varName => js "  - " ++ varName ++ js "=your_value_here")
                  (missing result))
           else ret tt) ;;
          (if (0 <? length (misconfigured result))%nat then
             consoleLog
               (10 :: 9888 :: 65039 :: js "  MISCONFIGURED (check values in .env):") ;;
             forEachLog
               (map (fun varName => js "  - " ++ varName) (misconfigured result))
           else ret tt) ;;
          consoleLog
            (10 :: 55357 :: 56481 ::
               js " Remember: Environment variables should whisper, not scream.")
    end.

(** The command line: the block under [require.main === module]. *)
Definition main : IO unit :=
  let detector := newDetector in
  args <- processArgv ;;
  (if (length args <? 3)%nat then
     consoleLog (js "Usage: node env-scream-detector.js <logfile>") ;;
     consoleLog (js "Example: node env-scream-detector.js error.log") ;;
     consoleLog (10 :: js "Pro tip: Your logs are probably screaming right now.") ;;
     processExit 1
   else ret tt) ;;
  analyze detector (nth 2 args []).

(** ** The reference loader as the specification words it

    Split the content on newline, keep the lines that contain [=], take what
    precedes the first [=] of each, trim it and upper-case it. *)

Fixpoint linesFrom (current : jsstring) (content : jsstring) : list jsstring :=
  match content with
  | [] => [rev current]
  | c :: content' =>
      if c =? 10 then rev current :: linesFrom [] content'
      else linesFrom (c :: current) content'
  end.

Definition linesOf (content : jsstring) : list jsstring := linesFrom [] content.

Definition containsEquals (line : jsstring) : bool := existsb (N.eqb 61) line.

Fixpoint beforeFirst (sep : N) (line : jsstring) : jsstring :=
  match line with
  | [] => []
  | c :: line' => if c =? sep then [] else c :: beforeFirst sep line'
  end.

Definition referenceKeysSpec (content : jsstring) : list jsstring :=
  map (fun line => toUpperCase (trim (beforeFirst 61 line)))
    (filter containsEquals (linesOf content)).

(** ** What the matcher accepts

    [Step ic r x y]: the pattern [r] can take the matcher from state [x] to
    state [y].  The backtracking matcher only ever returns such states
    ([matcher_sound]). *)

Inductive Iter (P : MState -> MState -> Prop) : MState -> MState -> Prop :=
| iter_stop x : Iter P x x
| iter_more x y z : P x y -> Iter P y z -> Iter P x z.

Fixpoint Step (ic : bool) (r : regex) (x y : MState) : Prop :=
  match r with
  | REmpty => y = x
  | RChar cs =>
      exists ch, rest x = ch :: rest y /\ charMatches ic cs ch = true /\
                 caps y = caps x
  | RSeq r1 r2 => exists m, Step ic r1 x m /\ Step ic r2 m y
  | RStar r' => Iter (Step ic r') x y
  | RPlus r' => exists m, Step ic r' x m /\ Iter (Step ic r') m y
  | RGroup n r' =>
      exists m, Step ic r' x m /\
                y = mkMState (rest m)
                      ((n, firstn (length (rest x) - length (rest m)) (rest x))
                         :: caps m)
  end.

Definition isUpperOrUnderscore (c : N) : bool :=
  ((65 <=? c) && (c <=? 90)) || (c =? 95).

Definition isNameChar (c : N) : bool :=
  isUpperOrUnderscore c || ((97 <=? c) && (c <=? 122)).

Definition allOf (f : N -> bool) (s : jsstring) : Prop :=
  Forall (fun c => f c = true) s.

Definition Substring (name s : jsstring) : Prop :=
  exists before after, s = before ++ name ++ after.

Fixpoint takeWhile (f : N -> bool) (s : jsstring) : jsstring :=
  match s with
  | [] => []
  | c :: s' => if f c then c :: takeWhile f s' else []
  end.

(** The values of [match[1]] that the [while] loop of [detectScreams] sees
    for one pattern, when [exec] starts on the text [s] still ahead of
    [lastIndex]: each match is the leftmost one, the next search starts where
    it ended. *)
Inductive Collected (ic : bool) (r : regex) : jsstring -> list jsstring -> Prop :=
| collected_end s : scan ic r s = None -> Collected ic r s []
| collected_more s i y name names :
    scan ic r s = Some (i, y) ->
    getCapture 1 (caps y) = Some name ->
    Collected ic r (rest y) names ->
    Collected ic r s (name :: names).

(** A pattern of the detector: global, with one group, and every match
    reads a name that is not empty. *)
Definition NamePattern (R : RegExp) : Prop :=
  global R = true /\ groupCount (source R) = 1%nat /\
  forall s y,
    matcher (ignoreCase R) (source R) (mkMState s []) Some = Some y ->
    exists before name after,
      s = before ++ name ++ after ++ rest y /\ name <> [] /\
      getCapture 1 (caps y) = Some name /\
      allOf (charMatches (ignoreCase R) upperOrUnderscore) name.

(** [name] stands in [s] right after the literal [l], as a whole run of
    [A-Z] and [_]: it is not empty and the run ends where the name ends. *)
Definition NameAfter (l s name : jsstring) : Prop :=
  exists before after,
    s = before ++ l ++ name ++ after /\ name <> [] /\
    allOf (charMatches false upperOrUnderscore) name /\
    takeWhile (charMatches false upperOrUnderscore) after = [].

(** The instances a program can hold: a new one, or one on which
    [detectScreams] has been called. *)
Inductive Reachable : EnvScreamDetector -> Prop :=
| reach_new : Reachable newDetector
| reach_call d logContent suspects d' :
    Reachable d ->
    detectScreams d logContent = Some (suspects, d') ->
    Reachable d'.

(** What the tool may do to the outside: print, and look at the file named
    on the command line and at [.env] in the working directory. *)
Definition ownEvent (w : World) (e : Event) : Prop :=
  match e with
  | ConsoleLog _ => True
  | ExistsSync path | ReadFileSync path =>
      path = nth 2 (argv w) [] \/ path = envPathOf w
  end.

Definition addName (suspects : list jsstring) (name : jsstring)
    : list jsstring :=
  setAdd (toUpperCase name) suspects.

(** ** Strings and arrays *)

Lemma strEq_true_iff (a b : jsstring) : strEq a b = true <-> a = b.
Proof.
  revert b. induction a as [|x a IH]; intros [|y b]; simpl;
    try (split; [discriminate | congruence]); try tauto.
  rewrite andb_true_iff, N.eqb_eq, IH. split.
  - intros [-> ->]. reflexivity.
  - intros H. injection H as -> ->. auto.
Qed.

Lemma arrIncludes_In (arr : list jsstring) (x : jsstring) :
  arrIncludes arr x = true <-> In x arr.
Proof.
  unfold arrIncludes. rewrite existsb_exists. split.
  - intros [y [Hy Heq]]. apply strEq_true_iff in Heq. subst. assumption.
  - intros H. exists x. split; [assumption | apply strEq_true_iff; reflexivity].
Qed.

Lemma arrIncludes_false (arr : list jsstring) (x : jsstring) :
  arrIncludes arr x = false <-> ~ In x arr.
Proof.
  rewrite <- arrIncludes_In. destruct (arrIncludes arr x); split;
    congruence.
Qed.

Lemma setAdd_In (x y : jsstring) (set : list jsstring) :
  In y (setAdd x set) <-> y = x \/ In y set.
Proof.
  unfold setAdd. destruct (arrIncludes set x) eqn:E.
  - apply arrIncludes_In in E. split; [auto | intros [-> | H]; assumption].
  - rewrite in_app_iff. simpl. intuition congruence.
Qed.

Lemma setAdd_NoDup (x : jsstring) (set : list jsstring) :
  NoDup set -> NoDup (setAdd x set).
Proof.
  intros H. unfold setAdd. destruct (arrIncludes set x) eqn:E; [assumption|].
  apply arrIncludes_false in E.
  apply NoDup_rev in H. rewrite <- (rev_involutive (set ++ [x])).
  apply NoDup_rev. rewrite rev_app_distr. simpl. constructor; [|assumption].
  rewrite <- in_rev. assumption.
Qed.

(** ** The classifier *)

Lemma filter_Interleaved {A : Type} (f : A -> bool) (l : list A) :
  Interleaved (filter (fun x => negb (f x)) l) (filter f l) l.
Proof.
  induction l as [|x l IH]; simpl; [constructor|].
  destruct (f x); simpl; constructor; assumption.
Qed.

Lemma Interleaved_In {A : Type} (l1 l2 l : list A) :
  Interleaved l1 l2 l -> forall x, In x l <-> In x l1 \/ In x l2.
Proof.
  induction 1; intros y; simpl; [tauto | |]; rewrite IHInterleaved; tauto.
Qed.

Lemma missing_In (C R : list jsstring) (x : jsstring) :
  In x (missing (classify C R)) <-> In x C /\ ~ In x R.
Proof.
  unfold classify. simpl. rewrite filter_In, negb_true_iff.
  rewrite arrIncludes_false. tauto.
Qed.

Lemma misconfigured_In (C R : list jsstring) (x : jsstring) :
  In x (misconfigured (classify C R)) <-> In x C /\ In x R.
Proof.
  unfold classify. simpl. rewrite filter_In, arrIncludes_In. tauto.
Qed.

(** C1. For every candidate sequence and every reference key array, the two
    outputs of the classifier are the candidates shuffled apart: each keeps
    the order of the candidates, together they are the candidates, no name
    is in both, and a candidate is misconfigured exactly when the reference
    array holds it. *)
Theorem classify_partition (C R : list jsstring) :
  Interleaved (missing (classify C R)) (misconfigured (classify C R)) C /\
  (forall x, In x C <->
             In x (missing (classify C R)) \/ In x (misconfigured (classify C R))) /\
  (forall x, ~ (In x (missing (classify C R)) /\
                In x (misconfigured (classify C R)))) /\
  (forall x, In x (missing (classify C R)) <-> In x C /\ ~ In x R) /\
  (forall x, In x (misconfigured (classify C R)) <-> In x C /\ In x R).
Proof.
  assert (HI : Interleaved (missing (classify C R))
                 (misconfigured (classify C R)) C)
    by (unfold classify; simpl; apply filter_Interleaved).
  split; [exact HI|].
  split; [exact (Interleaved_In _ _ _ HI)|].
  split; [|split; [apply missing_In | apply misconfigured_In]].
  intros x [H1 H2]. apply missing_In in H1. apply misconfigured_In in H2.
  tauto.
Qed.

(** ** [autopsy] *)

(** What [autopsy] does in each state of [.env]: absent, readable, or there
    but not readable (the read throws). *)
Lemma autopsy_cases (w : World) (suspects : list jsstring) :
  autopsy suspects w =
  match fs w (envPathOf w) with
  | None =>
      ([ExistsSync (envPathOf w)], Return (classify suspects []))
  | Some (File envContent) =>
      ([ExistsSync (envPathOf w); ReadFileSync (envPathOf w)],
       Return (classify suspects (existingVarsOf envContent)))
  | Some Unreadable =>
      ([ExistsSync (envPathOf w); ReadFileSync (envPathOf w)],
       Throw (envPathOf w))
  end.
Proof.
  unfold autopsy, bind, processCwd, existsSync, readFileSync, ret,
    envPathOf.
  cbv beta iota zeta. set (envPath := pathJoin (cwd w) (js ".env")).
  destruct (fs w envPath) as [[c|]|] eqn:E; cbv beta iota zeta; rewrite ?E;
    reflexivity.
Qed.

Lemma filter_all {A : Type} (f : A -> bool) (l : list A) :
  (forall x, In x l -> f x = true) -> filter f l = l.
Proof.
  induction l as [|x l IH]; simpl; intros H; [reflexivity|].
  rewrite (H x (or_introl eq_refl)). f_equal. apply IH. intros y Hy.
  apply H. right. assumption.
Qed.

Lemma filter_none {A : Type} (f : A -> bool) (l : list A) :
  (forall x, In x l -> f x = false) -> filter f l = [].
Proof.
  induction l as [|x l IH]; simpl; intros H; [reflexivity|].
  rewrite (H x (or_introl eq_refl)). apply IH. intros y Hy.
  apply H. right. assumption.
Qed.

(** C5. When [.env] does not exist, [autopsy] returns every candidate as
    missing and none as misconfigured; it only asks whether the file exists:
    nothing is read, nothing is printed, nothing is thrown. *)
Theorem autopsy_without_env_file (w : World) (suspects : list jsstring) :
  fs w (envPathOf w) = None ->
  autopsy suspects w =
  ([ExistsSync (envPathOf w)], Return (mkAutopsy suspects [])).
Proof.
  intros H. rewrite autopsy_cases, H. unfold classify. simpl.
  rewrite filter_all by reflexivity. rewrite filter_none by reflexivity.
  reflexivity.
Qed.

(** ** The reference loader *)

Lemma split_nonempty (sep : N) (s : jsstring) : split sep s <> [].
Proof.
  destruct s as [|c s]; simpl; [discriminate|].
  destruct (c =? sep); [discriminate|].
  destruct (split sep s); discriminate.
Qed.

Lemma split_head (sep : N) (s : jsstring) :
  nth 0 (split sep s) [] = beforeFirst sep s.
Proof.
  induction s as [|c s IH]; simpl; [reflexivity|].
  destruct (c =? sep); [reflexivity|].
  destruct (split sep s) as [|piece pieces] eqn:E.
  - exfalso. exact (split_nonempty _ _ E).
  - simpl in *. rewrite IH. reflexivity.
Qed.

Lemma linesFrom_split (current content : jsstring) :
  linesFrom current content =
  match split 10 content with
  | piece :: pieces => (rev current ++ piece) :: pieces
  | [] => []
  end.
Proof.
  revert current. induction content as [|c s IH]; intros current; simpl.
  - rewrite app_nil_r. reflexivity.
  - destruct (c =? 10).
    + rewrite app_nil_r. rewrite IH. simpl.
      destruct (split 10 s) eqn:E; [exfalso; exact (split_nonempty _ _ E)|].
      reflexivity.
    + rewrite IH. simpl.
      destruct (split 10 s) eqn:E; [exfalso; exact (split_nonempty _ _ E)|].
      rewrite <- app_assoc. reflexivity.
Qed.

Lemma linesOf_split (content : jsstring) : linesOf content = split 10 content.
Proof.
  unfold linesOf. rewrite linesFrom_split. simpl.
  destruct (split 10 content) eqn:E; [exfalso; exact (split_nonempty _ _ E)|].
  reflexivity.
Qed.

Lemma strIncludes_equals (line : jsstring) :
  strIncludes line (js "=") = containsEquals line.
Proof.
  change (js "=") with [61]. unfold containsEquals.
  induction line as [|c line IH]; [reflexivity|].
  cbn [strIncludes startsWith existsb]. rewrite IH.
  replace (startsWith line []) with true by (destruct line; reflexivity).
  rewrite andb_true_r. reflexivity.
Qed.

(** C8. The keys [autopsy] reads from the content of [.env] are the ones
    the specification describes: the content split on newline, the lines
    with a [=] kept, and of each the text before its first [=], trimmed and
    upper-cased. *)
Theorem existingVars_refines_spec (envContent : jsstring) :
  existingVarsOf envContent = referenceKeysSpec envContent.
Proof.
  unfold existingVarsOf, referenceKeysSpec.
  rewrite linesOf_split.
  induction (split 10 envContent) as [|line lines IH]; simpl; [reflexivity|].
  rewrite strIncludes_equals. destruct (containsEquals line); simpl.
  - rewrite split_head, IH. reflexivity.
  - exact IH.
Qed.

(** ** Commented lines of [.env] *)

Lemma dropWhile_snoc (f : N -> bool) (l : jsstring) (c : N) :
  f c = false -> dropWhile f (l ++ [c]) = dropWhile f l ++ [c].
Proof.
  intros Hc. induction l as [|a l IH]; simpl.
  - rewrite Hc. reflexivity.
  - destruct (f a); [exact IH | reflexivity].
Qed.

Lemma trim_comment (s t : jsstring) :
  dropWhile isTrimmed s = 35 :: t -> exists t', trim s = 35 :: t'.
Proof.
  intros H. unfold trim. rewrite H. simpl rev.
  rewrite dropWhile_snoc by reflexivity.
  rewrite rev_app_distr. simpl. eexists. reflexivity.
Qed.

Lemma beforeFirst_comment (line t : jsstring) :
  dropWhile isTrimmed line = 35 :: t ->
  exists t', dropWhile isTrimmed (beforeFirst 61 line) = 35 :: t'.
Proof.
  induction line as [|c line IH]; simpl; [discriminate|].
  destruct (isTrimmed c) eqn:Hc.
  - intros H. destruct (c =? 61) eqn:E.
    + apply N.eqb_eq in E. subst c. discriminate Hc.
    + simpl. rewrite Hc. apply IH. exact H.
  - intros H. injection H as -> _. simpl. eexists. reflexivity.
Qed.

Lemma toUpperCase_hash (s : jsstring) :
  toUpperCase (35 :: s) = 35 :: toUpperCase s.
Proof. reflexivity. Qed.

Lemma comment_key (line : jsstring) :
  isCommentLine line = true ->
  exists key, toUpperCase (trim (beforeFirst 61 line)) = 35 :: key.
Proof.
  unfold isCommentLine. intros H.
  destruct (dropWhile isTrimmed line) as [|c t] eqn:E; [discriminate|].
  apply N.eqb_eq in H. subst c.
  destruct (beforeFirst_comment _ _ E) as [t1 H1].
  destruct (trim_comment _ _ H1) as [t2 H2].
  rewrite H2, toUpperCase_hash. eexists. reflexivity.
Qed.

(** C2, as the code has it. With a readable [.env], a candidate is
    misconfigured exactly when some line with a [=] has it as its key, the
    key being the whole text before the first [=], trimmed and upper-cased.
    A commented line with a [=] is kept as a declaration, but its key starts
    with [#]: it declares [# NAME], not [NAME].  So when every line with a
    [=] is a comment, each candidate that does not start with [#] is
    missing, not misconfigured. *)
Theorem commented_line_declares_hash_key
    (w : World) (envContent : jsstring) (suspects : list jsstring) :
  fs w (envPathOf w) = Some (File envContent) ->
  exists t r,
    autopsy suspects w = (t, Return r) /\
    (forall name,
        In name (misconfigured r) <->
        In name suspects /\
        exists line, In line (split 10 envContent) /\
                     containsEquals line = true /\
                     toUpperCase (trim (beforeFirst 61 line)) = name) /\
    (forall line,
        In line (split 10 envContent) -> containsEquals line = true ->
        isCommentLine line = true ->
        exists key, toUpperCase (trim (beforeFirst 61 line)) = 35 :: key) /\
    ((forall line,
         In line (split 10 envContent) -> containsEquals line = true ->
         isCommentLine line = true) ->
     forall name,
       In name suspects -> hd_error name <> Some 35 ->
       In name (missing r) /\ ~ In name (misconfigured r)).
Proof.
  intros Hfs. rewrite autopsy_cases, Hfs. eexists. eexists.
  split; [reflexivity|].
  assert (Hkeys : forall name,
             In name (existingVarsOf envContent) <->
             exists line, In line (split 10 envContent) /\
                          containsEquals line = true /\
                          toUpperCase (trim (beforeFirst 61 line)) = name).
  { intros name. unfold existingVarsOf. rewrite in_map_iff. split.
    - intros [line [Hk Hin]]. apply filter_In in Hin.
      rewrite strIncludes_equals, split_head in *. exists line. tauto.
    - intros [line [Hin [Heq Hk]]]. exists line.
      rewrite filter_In, strIncludes_equals, split_head. tauto. }
  pose proof (missing_In suspects (existingVarsOf envContent)) as Hmis.
  pose proof (misconfigured_In suspects (existingVarsOf envContent)) as Hcfg.
  split; [|split].
  - intros name. rewrite Hcfg, Hkeys. tauto.
  - intros line _ _ Hc. apply comment_key. exact Hc.
  - intros Hall name Hin Hhd.
    assert (Hno : ~ In name (existingVarsOf envContent)).
    { rewrite Hkeys. intros [line (Hl & He & Hk)].
      destruct (comment_key line (Hall line Hl He)) as [key Hkey].
      rewrite Hkey in Hk. subst name. apply Hhd. reflexivity. }
    split; [apply Hmis; tauto|]. rewrite Hcfg. tauto.
Qed.

(** ** The class [[A-Z_]] and upper-casing *)

Lemma rangeMembers_In (lo hi c : N) :
  In c (rangeMembers (lo, hi)) <-> lo <= c <= hi.
Proof.
  unfold rangeMembers. simpl. rewrite in_map_iff. split.
  - intros [k [Hk Hin]]. apply in_seq in Hin. lia.
  - intros H. exists (N.to_nat (c - lo)). split; [lia|].
    apply in_seq. lia.
Qed.

Lemma upperOrUnderscore_members (c : N) :
  In c (classMembers [(65, 90); (95, 95)]) <-> isUpperOrUnderscore c = true.
Proof.
  unfold classMembers, isUpperOrUnderscore. cbn [flat_map].
  rewrite !in_app_iff, !rangeMembers_In. simpl In.
  rewrite orb_true_iff, andb_true_iff, !N.leb_le, N.eqb_eq. lia.
Qed.

Lemma class_case_sensitive (c : N) :
  charMatches false upperOrUnderscore c = isUpperOrUnderscore c.
Proof.
  apply eq_true_iff_eq. unfold charMatches, upperOrUnderscore.
  rewrite existsb_exists. unfold canon. split.
  - intros [a [Ha Heq]]. apply N.eqb_eq in Heq. subst a.
    apply upperOrUnderscore_members. exact Ha.
  - intros H. exists c. split; [|apply N.eqb_refl].
    apply upperOrUnderscore_members. exact H.
Qed.

Lemma canonicalize_upper (a : N) :
  isUpperOrUnderscore a = true -> canonicalize a = a.
Proof.
  unfold isUpperOrUnderscore, canonicalize, asciiUpper.
  rewrite orb_true_iff, andb_true_iff, !N.leb_le, N.eqb_eq. intros H.
  destruct (N.ltb_spec a 128); [|lia].
  destruct (N.leb_spec 97 a); [lia|]. reflexivity.
Qed.

Lemma canonicalize_ascii (c : N) :
  canonicalize c < 128 -> c < 128 /\ canonicalize c = asciiUpper c.
Proof.
  unfold canonicalize. destruct (N.ltb_spec c 128) as [Hc|Hc]; [auto|].
  destruct (unicodeUpper [c]) as [|cu [|? ?]]; try lia.
  destruct (N.ltb_spec cu 128); lia.
Qed.

Lemma asciiUpper_name (c : N) :
  isUpperOrUnderscore (asciiUpper c) = true -> isNameChar c = true.
Proof.
  unfold isNameChar, isUpperOrUnderscore, asciiUpper.
  destruct (N.leb_spec 97 c), (N.leb_spec c 122); simpl;
    rewrite ?orb_true_iff, ?andb_true_iff, ?N.leb_le, ?N.eqb_eq; lia.
Qed.

Lemma class_name_char (ic : bool) (c : N) :
  charMatches ic upperOrUnderscore c = true -> isNameChar c = true.
Proof.
  destruct ic.
  - unfold charMatches, upperOrUnderscore. rewrite existsb_exists.
    intros [a [Ha Heq]]. apply upperOrUnderscore_members in Ha.
    apply N.eqb_eq in Heq. unfold canon in Heq.
    rewrite (canonicalize_upper a Ha) in Heq.
    assert (Hlt : canonicalize c < 128).
    { rewrite <- Heq. unfold isUpperOrUnderscore in Ha.
      rewrite orb_true_iff, andb_true_iff, !N.leb_le, N.eqb_eq in Ha. lia. }
    destruct (canonicalize_ascii c Hlt) as [_ Hc].
    apply asciiUpper_name. rewrite <- Hc, <- Heq. exact Ha.
  - rewrite class_case_sensitive. unfold isNameChar. intros ->. reflexivity.
Qed.

Lemma isNameChar_upper (c : N) :
  isNameChar c = true ->
  c < 128 /\ isUpperOrUnderscore (asciiUpper c) = true.
Proof.
  unfold isNameChar, isUpperOrUnderscore, asciiUpper.
  rewrite !orb_true_iff, !andb_true_iff, !N.leb_le, N.eqb_eq. intros H.
  destruct (N.leb_spec 97 c), (N.leb_spec c 122); simpl;
    rewrite ?orb_true_iff, ?andb_true_iff, ?N.leb_le, ?N.eqb_eq; lia.
Qed.

Lemma isUpperOrUnderscore_fixed (c : N) :
  isUpperOrUnderscore c = true -> asciiUpper c = c.
Proof.
  unfold isUpperOrUnderscore, asciiUpper.
  rewrite !orb_true_iff, !andb_true_iff, !N.leb_le, N.eqb_eq. intros H.
  destruct (N.leb_spec 97 c); [lia | reflexivity].
Qed.

(** Upper-casing a name of ASCII letters and underscores goes letter by
    letter and leaves only [A-Z] and [_]. *)
Lemma toUpperCase_name (name : jsstring) :
  allOf isNameChar name ->
  toUpperCase name = map asciiUpper name /\
  allOf isUpperOrUnderscore (toUpperCase name).
Proof.
  unfold toUpperCase, allOf. induction 1 as [|c name Hc _ [IH1 IH2]]; simpl.
  - split; [reflexivity | constructor].
  - destruct (isNameChar_upper c Hc) as [Hlt Hup].
    destruct (N.ltb_spec c 128); [|lia]. simpl. rewrite IH1. split.
    + reflexivity.
    + constructor; [exact Hup|]. rewrite <- IH1. exact IH2.
Qed.

Lemma toUpperCase_upper (name : jsstring) :
  allOf isUpperOrUnderscore name -> toUpperCase name = name.
Proof.
  intros H. assert (Hn : allOf isNameChar name).
  { unfold allOf in *. eapply Forall_impl; [|exact H]. simpl.
    intros c Hc. unfold isNameChar. rewrite Hc. reflexivity. }
  rewrite (proj1 (toUpperCase_name name Hn)). clear Hn.
  unfold allOf in H. induction H as [|c name Hc _ IH]; simpl; [reflexivity|].
  rewrite IH, (isUpperOrUnderscore_fixed c Hc). reflexivity.
Qed.

(** ** The matcher returns only what the pattern accepts *)

Lemma repeatMatcher_sound (P : MState -> MState -> Prop)
    (m : MState -> Continuation -> option MState) :
  (forall x k z, m x k = Some z -> exists y, P x y /\ k y = Some z) ->
  forall n x k z,
    repeatMatcher m n x k = Some z -> exists y, Iter P x y /\ k y = Some z.
Proof.
  intros Hm. induction n as [|n IH]; intros x k z; simpl.
  - intros H. exists x. split; [constructor | exact H].
  - match goal with |- context [m x ?d] => destruct (m x d) as [z'|] eqn:E end.
    + intros H. injection H as ->. apply Hm in E.
      destruct E as [y [Hxy Hk]].
      destruct (length (rest y) <? length (rest x))%nat; [|discriminate].
      apply IH in Hk. destruct Hk as [y' [Hit Hk]].
      exists y'. split; [econstructor; eassumption | exact Hk].
    + intros H. exists x. split; [constructor | exact H].
Qed.

Theorem matcher_sound (ic : bool) (r : regex) :
  forall x k z,
    matcher ic r x k = Some z -> exists y, Step ic r x y /\ k y = Some z.
Proof.
  induction r as [|cs|r1 IH1 r2 IH2|r IH|r IH|n r IH]; intros x k z; simpl.
  - intros H. exists x. auto.
  - destruct x as [[|ch s] c]; simpl; [discriminate|].
    destruct (charMatches ic cs ch) eqn:E; [|discriminate].
    intros H. exists (mkMState s c). split; [|exact H].
    exists ch. auto.
  - intros H. apply IH1 in H. destruct H as [m [H1 H]].
    apply IH2 in H. destruct H as [y [H2 H]].
    exists y. split; [exists m; auto | exact H].
  - apply repeatMatcher_sound. exact IH.
  - intros H. apply IH in H. destruct H as [m [H1 H]].
    apply (repeatMatcher_sound _ _ IH) in H. destruct H as [y [H2 H]].
    exists y. split; [exists m; auto | exact H].
  - intros H. apply IH in H. destruct H as [m [H1 H]].
    eexists. split; [exists m; split; [exact H1 | reflexivity] | exact H].
Qed.

Lemma Iter_rest (P : MState -> MState -> Prop) :
  (forall x y, P x y -> exists m, rest x = m ++ rest y) ->
  forall x y, Iter P x y -> exists m, rest x = m ++ rest y.
Proof.
  intros HP x y H. induction H as [a|a b c Hab _ [m2 IH]].
  - exists []. reflexivity.
  - destruct (HP _ _ Hab) as [m1 H1]. exists (m1 ++ m2).
    rewrite H1, IH, app_assoc. reflexivity.
Qed.

Lemma Step_rest (ic : bool) (r : regex) :
  forall x y, Step ic r x y -> exists m, rest x = m ++ rest y.
Proof.
  induction r as [|cs|r1 IH1 r2 IH2|r IH|r IH|n r IH]; intros x y; simpl.
  - intros ->. exists []. reflexivity.
  - intros [ch [H _]]. exists [ch]. exact H.
  - intros [m [H1 H2]]. destruct (IH1 _ _ H1) as [m1 E1].
    destruct (IH2 _ _ H2) as [m2 E2]. exists (m1 ++ m2).
    rewrite E1, E2, app_assoc. reflexivity.
  - apply Iter_rest. exact IH.
  - intros [m [H1 H2]]. destruct (IH _ _ H1) as [m1 E1].
    destruct (Iter_rest _ IH _ _ H2) as [m2 E2]. exists (m1 ++ m2).
    rewrite E1, E2, app_assoc. reflexivity.
  - intros [m [H1 ->]]. simpl. apply IH. exact H1.
Qed.

Lemma Step_caps (ic : bool) (r : regex) :
  groupCount r = 0%nat -> forall x y, Step ic r x y -> caps y = caps x.
Proof.
  induction r as [|cs|r1 IH1 r2 IH2|r IH|r IH|n r IH]; simpl; intros Hg x y.
  - intros ->. reflexivity.
  - intros [ch [_ [_ H]]]. exact H.
  - intros [m [H1 H2]].
    rewrite (IH2 ltac:(lia) _ _ H2). apply (IH1 ltac:(lia) _ _ H1).
  - intros H. induction H as [a|a b c Hab _ IHit]; [reflexivity|].
    rewrite IHit. apply (IH Hg _ _ Hab).
  - intros [m [H1 H2]]. transitivity (caps m); [|apply (IH Hg _ _ H1)].
    clear H1. induction H2 as [a|a b c Hab _ IHit]; [reflexivity|].
    rewrite IHit. apply (IH Hg _ _ Hab).
  - discriminate.
Qed.

Lemma Step_rseq_app (ic : bool) (l1 l2 : list regex) (x y : MState) :
  Step ic (rseq (l1 ++ l2)) x y ->
  exists m, Step ic (rseq l1) x m /\ Step ic (rseq l2) m y.
Proof.
  revert x. induction l1 as [|r l1 IH]; intros x; simpl.
  - intros H. exists x. auto.
  - intros [m [H1 H2]]. destruct (IH _ H2) as [m' [H3 H4]].
    exists m'. split; [exists m; auto | exact H4].
Qed.

Lemma Step_char (ic : bool) (cs : charset) (x y : MState) :
  Step ic (RChar cs) x y ->
  exists ch, rest x = ch :: rest y /\ charMatches ic cs ch = true /\
             caps y = caps x.
Proof. exact (fun H => H). Qed.

Lemma Step_plus (ic : bool) (r : regex) (x y : MState) :
  Step ic (RPlus r) x y -> exists m, Step ic r x m /\ Iter (Step ic r) m y.
Proof. exact (fun H => H). Qed.

Lemma Step_group (ic : bool) (n : nat) (r : regex) (x y : MState) :
  Step ic (RGroup n r) x y ->
  exists m, Step ic r x m /\
            y = mkMState (rest m)
                  ((n, firstn (length (rest x) - length (rest m)) (rest x))
                     :: caps m).
Proof. exact (fun H => H). Qed.

Lemma Iter_class (ic : bool) (cs : charset) (x y : MState) :
  Iter (Step ic (RChar cs)) x y ->
  exists run, rest x = run ++ rest y /\ allOf (charMatches ic cs) run /\
              caps y = caps x.
Proof.
  induction 1 as [a|a b c Hab _ (run & E & Hall & Hc)].
  - exists []. repeat split. constructor.
  - apply Step_char in Hab.
    destruct Hab as (ch & E1 & Hch & Hc1). exists (ch :: run).
    simpl. rewrite E1, E. repeat split.
    + constructor; assumption.
    + congruence.
Qed.

(** The group [([A-Z_]+)] reads a name that is not empty and records it. *)
Lemma Step_nameGroup (ic : bool) (x y : MState) :
  Step ic nameGroup x y ->
  exists name, rest x = name ++ rest y /\ name <> [] /\
               allOf (charMatches ic upperOrUnderscore) name /\
               caps y = (1%nat, name) :: caps x.
Proof.
  intros H. apply Step_group in H. destruct H as (m & H & ->).
  apply Step_plus in H. destruct H as (m1 & H & Hit).
  apply Step_char in H. destruct H as (ch & E1 & Hch & Hc1).
  destruct (Iter_class _ _ _ _ Hit) as (run & E & Hall & Hc).
  exists (ch :: run). simpl.
  assert (Ex : rest x = (ch :: run) ++ rest m) by (simpl; congruence).
  repeat split.
  - exact Ex.
  - discriminate.
  - constructor; assumption.
  - rewrite Ex at 2. rewrite Ex, length_app.
    replace (length (ch :: run) + length (rest m) - length (rest m))%nat
      with (length (ch :: run)) by lia.
    rewrite firstn_app, firstn_all, Nat.sub_diag. simpl firstn.
    rewrite app_nil_r. congruence.
Qed.

(** A pattern made of the name group between two parts without groups. *)
Lemma Step_around_name (ic : bool) (before after : list regex)
    (x y : MState) :
  groupCount (rseq before) = 0%nat -> groupCount (rseq after) = 0%nat ->
  Step ic (rseq (before ++ nameGroup :: after)) x y ->
  exists b name a,
    rest x = b ++ name ++ a ++ rest y /\ name <> [] /\
    allOf (charMatches ic upperOrUnderscore) name /\
    caps y = (1%nat, name) :: caps x.
Proof.
  intros Hb Ha H. apply Step_rseq_app in H. destruct H as (m1 & H1 & H2).
  change (rseq (nameGroup :: after)) with (RSeq nameGroup (rseq after)) in H2.
  destruct H2 as (m2 & H2 & H3).
  destruct (Step_rest _ _ _ _ H1) as [b Eb].
  destruct (Step_rest _ _ _ _ H3) as [a Ea].
  destruct (Step_nameGroup _ _ _ H2) as (name & En & Hne & Hall & Hc).
  exists b, name, a. repeat split; try assumption.
  - rewrite Eb, En, Ea. reflexivity.
  - rewrite (Step_caps _ _ Ha _ _ H3), Hc, (Step_caps _ _ Hb _ _ H1).
    reflexivity.
Qed.

Lemma namePattern_around (ic : bool) (before after : list regex) (li : nat) :
  groupCount (rseq before) = 0%nat -> groupCount (rseq after) = 0%nat ->
  NamePattern (mkRegExp (rseq (before ++ nameGroup :: after)) true ic li).
Proof.
  intros Hb Ha. split; [reflexivity|]. split.
  - simpl. clear -Hb Ha. induction before as [|r before IH]; simpl in *.
    + rewrite Ha. reflexivity.
    + assert (groupCount r = 0%nat) as -> by lia. apply IH. lia.
  - simpl. intros s y H. apply matcher_sound in H.
    destruct H as [y' [H Hy]]. injection Hy as ->.
    destruct (Step_around_name _ _ _ _ _ Hb Ha H)
      as (b & name & a & E & Hne & Hall & Hc).
    exists b, name, a. simpl in E. repeat split; try assumption.
    rewrite Hc. reflexivity.
Qed.

Lemma pattern1_name : NamePattern pattern1.
Proof. apply (namePattern_around false [lit (js "process.env.")] []); reflexivity. Qed.

Lemma pattern2_name : NamePattern pattern2.
Proof. apply (namePattern_around false [lit (js "env.")] []); reflexivity. Qed.

Lemma pattern3_name : NamePattern pattern3.
Proof.
  apply (namePattern_around true
           [lit (js "Cannot read propert"); RPlus (RChar CsDot);
            lit (js "of undefined"); RStar (RChar CsDot); lit (js "env.")] []);
    reflexivity.
Qed.

Lemma pattern4_name : NamePattern pattern4.
Proof. apply (namePattern_around false [] [lit (js " is not defined")]); reflexivity. Qed.

Lemma pattern5_name : NamePattern pattern5.
Proof. apply (namePattern_around false [lit (js "Missing ")] []); reflexivity. Qed.

(** ** [exec] and the [while] loop *)

Lemma scan_some (ic : bool) (r : regex) (s : jsstring) (i : nat) (y : MState) :
  scan ic r s = Some (i, y) ->
  (i <= length s)%nat /\
  matcher ic r (mkMState (skipn i s) []) Some = Some y /\
  forall j, (j < i)%nat -> matcher ic r (mkMState (skipn j s) []) Some = None.
Proof.
  revert i. induction s as [|c s IH]; intros i; simpl.
  - destruct (matcher ic r (mkMState [] []) Some) eqn:E; [|discriminate].
    intros H. injection H as <- <-.
    split; [lia | split; [exact E | intros j Hj; lia]].
  - destruct (matcher ic r (mkMState (c :: s) []) Some) eqn:E.
    + intros H. injection H as <- <-.
      split; [lia | split; [exact E | intros j Hj; lia]].
    + destruct (scan ic r s) as [[i' y']|] eqn:Es; [|discriminate].
      intros H. injection H as <- <-.
      destruct (IH i' eq_refl) as (Hle & Hm & Hmin).
      split; [lia | split; [exact Hm|]].
      intros [|j] Hj; [exact E | apply Hmin; lia].
Qed.

Lemma scan_none (ic : bool) (r : regex) (s : jsstring) :
  scan ic r s = None ->
  forall j, matcher ic r (mkMState (skipn j s) []) Some = None.
Proof.
  induction s as [|c s IH]; simpl.
  - destruct (matcher ic r (mkMState [] []) Some) eqn:E; [discriminate|].
    intros _ j. rewrite skipn_nil. exact E.
  - destruct (matcher ic r (mkMState (c :: s) []) Some) eqn:E; [discriminate|].
    destruct (scan ic r s) as [[i' y']|] eqn:Es; [discriminate|].
    intros _ [|j]; [exact E | apply IH; reflexivity].
Qed.

Lemma scan_complete (ic : bool) (r : regex) (s : jsstring) (j : nat) (y : MState) :
  matcher ic r (mkMState (skipn j s) []) Some = Some y ->
  exists i y', scan ic r s = Some (i, y') /\ (i <= j)%nat.
Proof.
  intros H. destruct (scan ic r s) as [[i y']|] eqn:E.
  - exists i, y'. split; [reflexivity|].
    destruct (le_lt_dec i j) as [Hle|Hlt]; [exact Hle|].
    apply scan_some in E. destruct E as (_ & _ & Hmin).
    rewrite (Hmin j Hlt) in H. discriminate.
  - rewrite (scan_none _ _ _ E j) in H. discriminate.
Qed.

Lemma NamePattern_setLastIndex (R : RegExp) (i : nat) :
  NamePattern R -> NamePattern (setLastIndex R i).
Proof. intros H. exact H. Qed.

Lemma matchGet_matchArray (r : regex) (matched : jsstring) (y : MState) :
  groupCount r = 1%nat ->
  matchGet (matchArray r matched y) 1 = getCapture 1 (caps y).
Proof. intros H. unfold matchArray. rewrite H. reflexivity. Qed.

Lemma skipn_suffix {A : Type} (l1 l2 : list A) :
  skipn (length (l1 ++ l2) - length l2) (l1 ++ l2) = l2.
Proof.
  rewrite length_app. replace (length l1 + length l2 - length l2)%nat
    with (length l1) by lia.
  rewrite skipn_app, Nat.sub_diag, skipn_all. reflexivity.
Qed.

(** What one call of [exec] finds, read on the text ahead of [lastIndex]. *)
Lemma exec_found (R : RegExp) (str : jsstring) (i : nat) (y : MState) :
  NamePattern R -> (lastIndex R <= length str)%nat ->
  scan (ignoreCase R) (source R) (skipn (lastIndex R) str) = Some (i, y) ->
  exists m name,
    exec R str = (Some m, setLastIndex R (length str - length (rest y))) /\
    matchGet m 1 = Some name /\ getCapture 1 (caps y) = Some name /\
    name <> [] /\
    (lastIndex R < length str - length (rest y) <= length str)%nat /\
    skipn (length str - length (rest y)) str = rest y.
Proof.
  intros (Hg & Hc & Hm) Hli Hs. unfold exec. rewrite Hg.
  destruct (Nat.ltb_spec (length str) (lastIndex R)); [lia|]. rewrite Hs.
  destruct (scan_some _ _ _ _ _ Hs) as (Hi & Hy & _).
  destruct (Hm _ _ Hy) as (b & name & a & E & Hne & Hcap & _).
  eexists. exists name. split; [reflexivity|].
  rewrite matchGet_matchArray by exact Hc.
  assert (Estr : str = (firstn (lastIndex R + i) str ++ b ++ name ++ a)
                         ++ rest y).
  { rewrite <- !app_assoc. rewrite <- E, skipn_skipn.
    rewrite (Nat.add_comm i), firstn_skipn. reflexivity. }
  assert (Hlen : length (firstn (lastIndex R + i) str) = (lastIndex R + i)%nat).
  { apply firstn_length_le. rewrite length_skipn in Hi. lia. }
  assert (Hn : (0 < length name)%nat) by (destruct name; simpl; [congruence | lia]).
  repeat split; try assumption.
  - rewrite Estr at 1. rewrite !length_app, Hlen. lia.
  - lia.
  - rewrite Estr at 1 2. apply skipn_suffix.
Qed.

Lemma exec_null (R : RegExp) (str : jsstring) :
  NamePattern R ->
  scan (ignoreCase R) (source R) (skipn (lastIndex R) str) = None ->
  exec R str = (None, setLastIndex R 0).
Proof.
  intros (Hg & _) Hs. unfold exec. rewrite Hg, Hs.
  destruct (length str <? lastIndex R)%nat; reflexivity.
Qed.

Lemma addSuspect_name (m : MatchArray) (name : jsstring)
    (suspects : list jsstring) :
  matchGet m 1 = Some name -> name <> [] ->
  addSuspect m suspects = addName suspects name.
Proof.
  intros H Hne. unfold addSuspect. rewrite H.
  destruct name; [congruence | reflexivity].
Qed.

(** The loop ends, leaves [lastIndex] at 0, and has added the names that
    [Collected] lists, in order. *)
Lemma whileExec_collected (str : jsstring) :
  forall fuel R suspects,
    NamePattern R -> (lastIndex R <= length str)%nat ->
    (length str - lastIndex R < fuel)%nat ->
    exists names,
      Collected (ignoreCase R) (source R) (skipn (lastIndex R) str) names /\
      whileExec fuel R str suspects =
      Some (fold_left addName names suspects, setLastIndex R 0).
Proof.
  induction fuel as [|fuel IH]; intros R suspects HR Hli Hfuel; [lia|].
  simpl.
  destruct (scan (ignoreCase R) (source R) (skipn (lastIndex R) str))
    as [[i y]|] eqn:Hs.
  - destruct (exec_found R str i y HR Hli Hs)
      as (m & name & He & Hm & Hcap & Hne & Hlt & Hrest).
    rewrite He.
    set (e := (length str - length (rest y))%nat) in *.
    destruct (IH (setLastIndex R e) (addSuspect m suspects))
      as (names & Hcol & Hloop).
    + exact HR.
    + simpl. lia.
    + simpl. lia.
    + exists (name :: names). split.
      * eapply collected_more; [exact Hs | exact Hcap |].
        simpl in Hcol. rewrite Hrest in Hcol. exact Hcol.
      * rewrite Hloop. rewrite (addSuspect_name _ _ _ Hm Hne). reflexivity.
  - rewrite (exec_null R str HR Hs). exists []. split.
    + apply collected_end. exact Hs.
    + reflexivity.
Qed.

(** When [lastIndex] is past the end of the text, the first call of [exec]
    resets it and the loop adds nothing. *)
Lemma whileExec_past_end (str : jsstring) (fuel : nat) (R : RegExp)
    (suspects : list jsstring) :
  global R = true -> (length str < lastIndex R)%nat ->
  whileExec (S fuel) R str suspects = Some (suspects, setLastIndex R 0).
Proof.
  intros Hg Hli. simpl. unfold exec. rewrite Hg.
  destruct (Nat.ltb_spec (length str) (lastIndex R)); [reflexivity | lia].
Qed.

Lemma Collected_unique (ic : bool) (r : regex) (s : jsstring)
    (names1 names2 : list jsstring) :
  Collected ic r s names1 -> Collected ic r s names2 -> names1 = names2.
Proof.
  intros H. revert names2.
  induction H as [s Hs|s i y name names Hs Hc _ IH]; intros names2 H2.
  - destruct H2 as [s _|s i y name names Hs2 _ _]; [reflexivity | congruence].
  - destruct H2 as [s Hs2|s i2 y2 name2 names2 Hs2 Hc2 H2]; [congruence|].
    rewrite Hs in Hs2. injection Hs2 as <- <-.
    rewrite Hc in Hc2. injection Hc2 as <-. f_equal. apply IH. exact H2.
Qed.

Lemma Substring_skip (name s : jsstring) (before : jsstring) :
  Substring name s -> Substring name (before ++ s).
Proof.
  intros (b & a & ->). exists (before ++ b), a.
  rewrite <- app_assoc. reflexivity.
Qed.

(** Every collected name stands in the text, is not empty, and is made of
    code units that the class accepts. *)
Lemma Collected_names (R : RegExp) (s : jsstring) (names : list jsstring) :
  NamePattern R ->
  Collected (ignoreCase R) (source R) s names ->
  forall name, In name names ->
    Substring name s /\ name <> [] /\
    allOf (charMatches (ignoreCase R) upperOrUnderscore) name.
Proof.
  intros (_ & _ & Hm) H.
  induction H as [s Hs|s i y name names Hs Hc _ IH]; intros n Hin;
    [destruct Hin|].
  destruct (scan_some _ _ _ _ _ Hs) as (Hi & Hy & _).
  destruct (Hm _ _ Hy) as (b & name' & a & E & Hne & Hcap & Hall).
  rewrite Hc in Hcap. injection Hcap as <-.
  assert (Es : s = firstn i s ++ b ++ name ++ a ++ rest y)
    by (rewrite <- E; symmetry; apply firstn_skipn).
  destruct Hin as [<-|Hin].
  - split; [|split; assumption].
    exists (firstn i s ++ b), (a ++ rest y). rewrite <- app_assoc. exact Es.
  - destruct (IH n Hin) as (Hsub & Hrest). split; [|exact Hrest].
    rewrite Es. rewrite !app_assoc. apply Substring_skip. exact Hsub.
Qed.

Lemma scan_empty (R : RegExp) :
  NamePattern R -> scan (ignoreCase R) (source R) [] = None.
Proof.
  intros (_ & _ & Hm). simpl.
  destruct (matcher (ignoreCase R) (source R) (mkMState [] []) Some)
    as [y|] eqn:E; [|reflexivity].
  destruct (Hm _ _ E) as (b & name & a & Hs & Hne & _).
  destruct b; [|discriminate]. destruct name; [congruence | discriminate].
Qed.

Lemma whileExec_any (str : jsstring) (fuel : nat) (R : RegExp)
    (suspects : list jsstring) :
  NamePattern R -> (length str < fuel)%nat ->
  exists names,
    Collected (ignoreCase R) (source R) (skipn (lastIndex R) str) names /\
    whileExec fuel R str suspects =
    Some (fold_left addName names suspects, setLastIndex R 0).
Proof.
  intros HR Hfuel. destruct (le_lt_dec (lastIndex R) (length str)) as [Hle|Hgt].
  - apply whileExec_collected; [assumption | assumption | lia].
  - exists []. split.
    + rewrite skipn_all2 by lia. apply collected_end. apply scan_empty.
      exact HR.
    + destruct fuel as [|fuel]; [lia|].
      apply whileExec_past_end; [apply HR | exact Hgt].
Qed.

(** The loop of one pattern is total: the names it adds do not depend on
    the bound, as soon as the bound exceeds the length of the text. *)
Lemma whileExec_total (str : jsstring) (R : RegExp) :
  NamePattern R ->
  exists names,
    Collected (ignoreCase R) (source R) (skipn (lastIndex R) str) names /\
    forall fuel suspects,
      (length str < fuel)%nat ->
      whileExec fuel R str suspects =
      Some (fold_left addName names suspects, setLastIndex R 0).
Proof.
  intros HR.
  destruct (whileExec_any str (S (length str)) R [] HR (Nat.lt_succ_diag_r _))
    as (names & Hcol & _).
  exists names. split; [exact Hcol|]. intros fuel suspects Hfuel.
  destruct (whileExec_any str fuel R suspects HR Hfuel) as (names' & Hcol' & H).
  rewrite (Collected_unique _ _ _ _ _ Hcol Hcol'). exact H.
Qed.

Lemma forEachPattern_total (str : jsstring) (patterns : list RegExp) :
  Forall NamePattern patterns ->
  exists lists,
    Forall2 (fun R names =>
               Collected (ignoreCase R) (source R)
                 (skipn (lastIndex R) str) names) patterns lists /\
    forall fuel suspects,
      (length str < fuel)%nat ->
      forEachPattern fuel patterns str suspects =
      Some (fold_left addName (concat lists) suspects,
            map (fun R => setLastIndex R 0) patterns).
Proof.
  induction 1 as [|R patterns HR _ (lists & Hall & Hrun)].
  - exists []. split; [constructor | reflexivity].
  - destruct (whileExec_total str R HR) as (names & Hcol & Hloop).
    exists (names :: lists). split; [constructor; assumption|].
    intros fuel suspects Hfuel. simpl.
    rewrite (Hloop fuel suspects Hfuel), (Hrun fuel _ Hfuel).
    rewrite fold_left_app. reflexivity.
Qed.

(** [detectScreams] always returns: the suspects are the collected names of
    each pattern in turn, upper-cased and without repeats, and every
    [lastIndex] is back at 0. *)
Lemma detectScreamsFuel_total (d : EnvScreamDetector) (logContent : jsstring) :
  Forall NamePattern (envPatterns d) ->
  exists lists,
    Forall2 (fun R names =>
               Collected (ignoreCase R) (source R)
                 (skipn (lastIndex R) logContent) names)
      (envPatterns d) lists /\
    forall fuel,
      (length logContent < fuel)%nat ->
      detectScreamsFuel fuel d logContent =
      Some (fold_left addName (concat lists) [], resetAll d).
Proof.
  intros Hd. destruct (forEachPattern_total logContent _ Hd)
    as (lists & Hall & Hrun).
  exists lists. split; [exact Hall|]. intros fuel Hfuel.
  unfold detectScreamsFuel. rewrite (Hrun fuel [] Hfuel). reflexivity.
Qed.

(** The bound built into [detectScreams] is enough: a larger one gives the
    same result. *)
Lemma detectScreams_fuel (d : EnvScreamDetector) (logContent : jsstring)
    (fuel : nat) :
  Forall NamePattern (envPatterns d) ->
  (length logContent < fuel)%nat ->
  detectScreamsFuel fuel d logContent = detectScreams d logContent.
Proof.
  intros Hd Hfuel. destruct (detectScreamsFuel_total d logContent Hd)
    as (lists & _ & Hrun).
  unfold detectScreams. rewrite (Hrun fuel Hfuel).
  rewrite (Hrun (S (length logContent)) (Nat.lt_succ_diag_r _)). reflexivity.
Qed.

Lemma newDetector_patterns : Forall NamePattern (envPatterns newDetector).
Proof.
  repeat constructor;
    [apply pattern1_name | apply pattern2_name | apply pattern3_name
    | apply pattern4_name | apply pattern5_name].
Qed.

Lemma resetAll_patterns (d : EnvScreamDetector) :
  resetAll d = newDetector -> Forall NamePattern (envPatterns d).
Proof.
  intros H. assert (HF : Forall NamePattern (envPatterns (resetAll d)))
    by (rewrite H; apply newDetector_patterns).
  unfold resetAll in HF. simpl in HF. rewrite Forall_map in HF.
  exact HF.
Qed.

Lemma fold_addName_In (names suspects : list jsstring) (x : jsstring) :
  In x (fold_left addName names suspects) <->
  In x suspects \/ exists name, In name names /\ x = toUpperCase name.
Proof.
  revert suspects. induction names as [|n names IH]; intros suspects; simpl.
  - split; [auto | intros [H|[name [[] _]]]; exact H].
  - rewrite IH. unfold addName at 1. rewrite setAdd_In. split.
    + intros [[->|H]|[name [Hin Hx]]]; eauto.
    + intros [H|[name [[->|Hin] Hx]]]; eauto.
Qed.

Lemma fold_addName_NoDup (names suspects : list jsstring) :
  NoDup suspects -> NoDup (fold_left addName names suspects).
Proof.
  revert suspects. induction names as [|n names IH]; intros suspects H; simpl.
  - exact H.
  - apply IH. apply setAdd_NoDup. exact H.
Qed.

Lemma Reachable_new (d : EnvScreamDetector) : Reachable d -> d = newDetector.
Proof.
  induction 1 as [|d logContent suspects d' _ IH Hcall]; [reflexivity|].
  subst d. destruct (detectScreamsFuel_total newDetector logContent
                       newDetector_patterns) as (lists & _ & Hrun).
  unfold detectScreams in Hcall.
  rewrite (Hrun _ (Nat.lt_succ_diag_r _)) in Hcall.
  injection Hcall as _ <-. reflexivity.
Qed.

Lemma Forall2_concat_In {A B : Type} (P : A -> list B -> Prop)
    (l : list A) (lists : list (list B)) (x : B) :
  Forall2 P l lists -> In x (concat lists) ->
  exists a names, In a l /\ P a names /\ In x names.
Proof.
  induction 1 as [|a names l lists Hp _ IH]; simpl; [intros []|].
  rewrite in_app_iff. intros [Hin|Hin].
  - exists a, names. auto.
  - destruct (IH Hin) as (a' & names' & Ha & Hp' & Hx).
    exists a', names'. auto.
Qed.

Lemma Forall2_In_concat {A B : Type} (P : A -> list B -> Prop)
    (l : list A) (lists : list (list B)) (a : A) :
  Forall2 P l lists -> In a l ->
  exists names, P a names /\ forall x, In x names -> In x (concat lists).
Proof.
  induction 1 as [|a' names l lists Hp _ IH]; simpl; [intros []|].
  intros [->|Hin].
  - exists names. split; [exact Hp|]. intros x Hx. apply in_app_iff. auto.
  - destruct (IH Hin) as (names' & Hp' & Hsub). exists names'.
    split; [exact Hp'|]. intros x Hx. apply in_app_iff. auto.
Qed.

(** The suspects of a call, pattern by pattern. *)
Lemma detectScreams_suspects (d : EnvScreamDetector) (logContent : jsstring) :
  Forall NamePattern (envPatterns d) ->
  exists suspects,
    detectScreams d logContent = Some (suspects, resetAll d) /\
    NoDup suspects /\
    forall x,
      In x suspects <->
      exists R names name,
        In R (envPatterns d) /\
        Collected (ignoreCase R) (source R)
          (skipn (lastIndex R) logContent) names /\
        In name names /\ x = toUpperCase name.
Proof.
  intros Hd. destruct (detectScreamsFuel_total d logContent Hd)
    as (lists & Hall & Hrun).
  exists (fold_left addName (concat lists) []). split; [|split].
  - apply Hrun. apply Nat.lt_succ_diag_r.
  - apply fold_addName_NoDup. constructor.
  - intros x. rewrite fold_addName_In. split.
    + intros [[]|(name & Hin & Hx)].
      destruct (Forall2_concat_In _ _ _ _ Hall Hin) as (R & names & HR & Hc & Hn).
      exists R, names, name. auto.
    + intros (R & names & name & HR & Hc & Hn & Hx). right.
      destruct (Forall2_In_concat _ _ _ _ Hall HR) as (names' & Hc' & Hsub).
      exists name. split; [|exact Hx]. apply Hsub.
      rewrite (Collected_unique _ _ _ _ _ Hc' Hc). exact Hn.
Qed.

Lemma Substring_skipn (name s : jsstring) (n : nat) :
  Substring name (skipn n s) -> Substring name s.
Proof.
  intros H. rewrite <- (firstn_skipn n s). apply Substring_skip. exact H.
Qed.

(** ** The claims about [detectScreams] *)

(** C7. Whatever the log text, and whatever [lastIndex] the five patterns of
    the instance hold when the call starts, [detectScreams] returns, and
    every candidate it returns is made of the upper-case letters [A-Z] and
    [_] only: it is not empty and upper-casing leaves it as it is. *)
Theorem candidates_upper_case (d : EnvScreamDetector) (logContent : jsstring) :
  resetAll d = newDetector ->
  exists suspects,
    detectScreams d logContent = Some (suspects, newDetector) /\
    forall name,
      In name suspects ->
      name <> [] /\ allOf isUpperOrUnderscore name /\ toUpperCase name = name.
Proof.
  intros Hreset. pose proof (resetAll_patterns d Hreset) as Hd.
  destruct (detectScreams_suspects d logContent Hd) as (suspects & Hrun & _ & Hin).
  exists suspects. rewrite <- Hreset. split; [exact Hrun|].
  intros x Hx. apply Hin in Hx.
  destruct Hx as (R & names & name & HR & Hc & Hn & ->).
  assert (HNP : NamePattern R) by (rewrite Forall_forall in Hd; auto).
  destruct (Collected_names R _ _ HNP Hc name Hn) as (_ & Hne & Hall).
  assert (Hname : allOf isNameChar name).
  { unfold allOf in *. eapply Forall_impl; [|exact Hall].
    intros c. apply class_name_char. }
  destruct (toUpperCase_name name Hname) as [Hmap Hup].
  split; [|split].
  - rewrite Hmap. destruct name; [congruence | discriminate].
  - exact Hup.
  - apply toUpperCase_upper. exact Hup.
Qed.

(** C4. On an instance that is new or has only been used through
    [detectScreams], two calls in a row on the same text return the same
    suspects: the first call leaves every [lastIndex] at 0, so the instance
    is again as it was. *)
Theorem detectScreams_twice (d : EnvScreamDetector) (logContent : jsstring) :
  Reachable d ->
  exists suspects d1 d2,
    detectScreams d logContent = Some (suspects, d1) /\
    detectScreams d1 logContent = Some (suspects, d2) /\
    d1 = d /\ d2 = d /\
    Forall (fun R => lastIndex R = 0%nat) (envPatterns d1).
Proof.
  intros H. apply Reachable_new in H. subst d.
  destruct (detectScreams_suspects newDetector logContent newDetector_patterns)
    as (suspects & Hrun & _).
  change (resetAll newDetector) with newDetector in Hrun.
  exists suspects, newDetector, newDetector.
  repeat split; try assumption. repeat constructor.
Qed.

(** C3, as the code has it. Only the third pattern carries the flag [i].
    A candidate found by one of the four others stands in the log as it is,
    in upper-case letters and underscores; any other candidate is the
    upper-casing of a name of ASCII letters and underscores that the third
    pattern read in the log.  (So a name written in lower case after
    [process.env.] is not a candidate.) *)
Theorem matching_is_case_sensitive (logContent : jsstring) :
  exists suspects,
    detectScreams newDetector logContent = Some (suspects, newDetector) /\
    forall x,
      In x suspects ->
      (Substring x logContent /\ x <> [] /\ allOf isUpperOrUnderscore x) \/
      (exists names name,
          Collected true (source pattern3) logContent names /\
          In name names /\ Substring name logContent /\
          allOf isNameChar name /\ x = toUpperCase name).
Proof.
  destruct (detectScreams_suspects newDetector logContent newDetector_patterns)
    as (suspects & Hrun & _ & Hin).
  exists suspects. split; [exact Hrun|].
  intros x Hx. apply Hin in Hx.
  destruct Hx as (R & names & name & HR & Hc & Hn & ->).
  assert (HNP : NamePattern R).
  { pose proof newDetector_patterns as Hd. rewrite Forall_forall in Hd. auto. }
  destruct (Collected_names R _ _ HNP Hc name Hn) as (Hsub & Hne & Hall).
  apply Substring_skipn in Hsub.
  assert (Hsensitive : ignoreCase R = false ->
            Substring (toUpperCase name) logContent /\
            toUpperCase name <> [] /\
            allOf isUpperOrUnderscore (toUpperCase name)).
  { intros Hic. rewrite Hic in Hall.
    assert (Hup : allOf isUpperOrUnderscore name).
    { unfold allOf in *. eapply Forall_impl; [|exact Hall].
      intros c Hcm. rewrite <- class_case_sensitive. exact Hcm. }
    rewrite (toUpperCase_upper name Hup). auto. }
  simpl in HR.
  destruct HR as [<-|[<-|[<-|[<-|[<-|[]]]]]];
    try (left; apply Hsensitive; reflexivity).
  right. exists names, name. repeat split; try assumption.
  unfold allOf in *. eapply Forall_impl; [|exact Hall].
  intros c. apply class_name_char.
Qed.

(** ** A literal followed by the name group: what the matcher computes *)

Lemma startsWith_app (s l : jsstring) :
  startsWith s l = true -> s = l ++ skipn (length l) s.
Proof.
  revert s. induction l as [|c l IH]; intros s; [reflexivity|].
  destruct s as [|a s]; simpl; [discriminate|].
  rewrite andb_true_iff, N.eqb_eq. intros [-> H].
  f_equal. apply IH. exact H.
Qed.

Lemma startsWith_prefix (l t : jsstring) : startsWith (l ++ t) l = true.
Proof.
  induction l as [|c l IH]; simpl; [reflexivity|].
  rewrite N.eqb_refl. exact IH.
Qed.

Lemma matcher_lit (l : jsstring) :
  forall x k,
    matcher false (lit l) x k =
    if startsWith (rest x) l
    then k (mkMState (skipn (length l) (rest x)) (caps x))
    else None.
Proof.
  induction l as [|c l IH]; intros [s cs] k; simpl; [reflexivity|].
  destruct s as [|ch s]; [reflexivity|].
  destruct (c =? ch); simpl; [apply IH | reflexivity].
Qed.

Lemma take_drop (f : N -> bool) (s : jsstring) :
  s = takeWhile f s ++ dropWhile f s.
Proof.
  induction s as [|c s IH]; simpl; [reflexivity|].
  destruct (f c); simpl; [f_equal; exact IH | reflexivity].
Qed.

Lemma takeWhile_all (f : N -> bool) (s : jsstring) : allOf f (takeWhile f s).
Proof.
  unfold allOf. induction s as [|c s IH]; simpl; [constructor|].
  destruct (f c) eqn:E; constructor; assumption.
Qed.

Lemma takeWhile_dropWhile (f : N -> bool) (s : jsstring) :
  takeWhile f (dropWhile f s) = [].
Proof.
  induction s as [|c s IH]; simpl; [reflexivity|].
  destruct (f c) eqn:E; [exact IH|]. simpl. rewrite E. reflexivity.
Qed.

Lemma takeWhile_app (f : N -> bool) (name t : jsstring) :
  allOf f name -> takeWhile f t = [] ->
  takeWhile f (name ++ t) = name /\ dropWhile f (name ++ t) = t.
Proof.
  unfold allOf. induction 1 as [|c name Hc _ IH]; simpl; intros Ht.
  - split; [exact Ht|]. destruct t as [|c t]; [reflexivity|].
    simpl in *. destruct (f c); [discriminate | reflexivity].
  - rewrite Hc. destruct (IH Ht) as [-> ->]. auto.
Qed.

Lemma dropWhile_app_stop (f : N -> bool) (l t : jsstring) (c : N) :
  f c = false -> dropWhile f (l ++ c :: t) = dropWhile f l ++ c :: t.
Proof.
  intros Hc. induction l as [|a l IH]; simpl.
  - rewrite Hc. reflexivity.
  - destruct (f a); [exact IH | reflexivity].
Qed.

Lemma dropWhile_length (f : N -> bool) (s : jsstring) :
  (length (dropWhile f s) <= length s)%nat.
Proof.
  induction s as [|c s IH]; simpl; [lia|]. destruct (f c); simpl; lia.
Qed.

Lemma firstn_takeWhile (f : N -> bool) (s : jsstring) :
  firstn (length s - length (dropWhile f s)) s = takeWhile f s.
Proof.
  rewrite (take_drop f s) at 1 3. rewrite length_app.
  replace (length (takeWhile f s) + length (dropWhile f s)
           - length (dropWhile f s))%nat
    with (length (takeWhile f s)) by lia.
  rewrite firstn_app, firstn_all, Nat.sub_diag. simpl.
  apply app_nil_r.
Qed.

Lemma matcher_char (ic : bool) (cs : charset) (x : MState) (k : Continuation) :
  matcher ic (RChar cs) x k =
  match rest x with
  | ch :: s' => if charMatches ic cs ch then k (mkMState s' (caps x)) else None
  | [] => None
  end.
Proof. reflexivity. Qed.

Lemma matcher_plus (ic : bool) (r : regex) (x : MState) (k : Continuation) :
  matcher ic (RPlus r) x k =
  matcher ic r x (fun y => repeatMatcher (matcher ic r) (length (rest y)) y k).
Proof. reflexivity. Qed.

Lemma matcher_group (ic : bool) (n : nat) (r : regex) (x : MState)
    (k : Continuation) :
  matcher ic (RGroup n r) x k =
  matcher ic r x
    (fun y =>
       k (mkMState (rest y)
            ((n, firstn (length (rest x) - length (rest y)) (rest x))
               :: caps y))).
Proof. reflexivity. Qed.

(** A greedy repetition of a class before a continuation that never fails
    reads the longest run. *)
Lemma repeat_class_greedy (cs : charset) (k : Continuation) :
  (forall y, k y <> None) ->
  forall n x,
    (length (rest x) <= n)%nat ->
    repeatMatcher (matcher false (RChar cs)) n x k =
    k (mkMState (dropWhile (charMatches false cs) (rest x)) (caps x)).
Proof.
  intros Hk. set (m := matcher false (RChar cs)).
  induction n as [|n IH]; intros [s c] Hn; cbn [rest caps] in *.
  - destruct s; [reflexivity | simpl in Hn; lia].
  - cbn [repeatMatcher]. unfold m at 1. rewrite matcher_char. cbn [rest caps].
    destruct s as [|ch s]; [reflexivity|]. cbn [dropWhile].
    destruct (charMatches false cs ch) eqn:E; [|reflexivity].
    cbn [rest]. destruct (Nat.ltb_spec (length s) (length (ch :: s)));
      [|simpl in *; lia].
    rewrite IH by (simpl in *; lia). cbn [rest caps].
    destruct (k (mkMState (dropWhile (charMatches false cs) s) c)) eqn:Ek;
      [reflexivity | exfalso; exact (Hk _ Ek)].
Qed.

Lemma matcher_nameGroup (x : MState) (k : Continuation) :
  (forall y, k y <> None) ->
  matcher false nameGroup x k =
  match takeWhile (charMatches false upperOrUnderscore) (rest x) with
  | [] => None
  | name =>
      k (mkMState (dropWhile (charMatches false upperOrUnderscore) (rest x))
           ((1%nat, name) :: caps x))
  end.
Proof.
  intros Hk. destruct x as [s c]. unfold nameGroup.
  rewrite matcher_group, matcher_plus, matcher_char. cbn [rest caps].
  destruct s as [|ch s]; [reflexivity|].
  cbn [takeWhile dropWhile].
  destruct (charMatches false upperOrUnderscore ch) eqn:E; [|reflexivity].
  rewrite repeat_class_greedy; [|intros y; apply Hk | cbn [rest]; lia].
  cbn [rest caps]. do 3 f_equal.
  pose proof (dropWhile_length (charMatches false upperOrUnderscore) s) as Hlen.
  replace (length (ch :: s)
           - length (dropWhile (charMatches false upperOrUnderscore) s))%nat
    with (S (length s
             - length (dropWhile (charMatches false upperOrUnderscore) s)))
    by (cbn [length]; lia).
  cbn [firstn]. rewrite firstn_takeWhile. reflexivity.
Qed.

Lemma matcher_literal_name (l s : jsstring) :
  matcher false (rseq [lit l; nameGroup]) (mkMState s []) Some =
  if startsWith s l then
    match takeWhile (charMatches false upperOrUnderscore) (skipn (length l) s) with
    | [] => None
    | name =>
        Some (mkMState
                (dropWhile (charMatches false upperOrUnderscore)
                   (skipn (length l) s))
                [(1%nat, name)])
    end
  else None.
Proof.
  cbn [rseq matcher]. rewrite matcher_lit. cbn [rest caps].
  destruct (startsWith s l); [|reflexivity].
  rewrite matcher_nameGroup by (intros y; discriminate). reflexivity.
Qed.

(** ** The first pattern against the second *)

Lemma matcher_at_name (l name after : jsstring) :
  name <> [] -> allOf (charMatches false upperOrUnderscore) name ->
  takeWhile (charMatches false upperOrUnderscore) after = [] ->
  matcher false (rseq [lit l; nameGroup])
    (mkMState (l ++ name ++ after) []) Some =
  Some (mkMState after [(1%nat, name)]).
Proof.
  intros Hne Hall Hstop. rewrite matcher_literal_name, startsWith_prefix.
  rewrite skipn_app, Nat.sub_diag, skipn_all. simpl app.
  destruct (takeWhile_app _ _ _ Hall Hstop) as [-> ->].
  destruct name; [congruence | reflexivity].
Qed.

(** Every name the loop collects for a literal followed by the name group
    stands in the text right after that literal. *)
Lemma literal_names_after (l s : jsstring) (names : list jsstring) :
  Collected false (rseq [lit l; nameGroup]) s names ->
  forall name, In name names -> NameAfter l s name.
Proof.
  induction 1 as [s Hs|s i y n names Hs Hc _ IH]; intros name Hin;
    [destruct Hin|].
  destruct (scan_some _ _ _ _ _ Hs) as (_ & Hy & _).
  rewrite matcher_literal_name in Hy.
  destruct (startsWith (skipn i s) l) eqn:Est; [|discriminate].
  apply startsWith_app in Est.
  set (f := charMatches false upperOrUnderscore) in *.
  set (t := skipn (length l) (skipn i s)) in *.
  destruct (takeWhile f t) as [|c0 nm] eqn:Etk; [discriminate|].
  injection Hy as <-. simpl in Hc. injection Hc as <-.
  assert (Es : s = firstn i s ++ l ++ (c0 :: nm) ++ dropWhile f t).
  { rewrite <- Etk, <- (take_drop f t), <- Est. symmetry.
    apply firstn_skipn. }
  destruct Hin as [<-|Hin].
  - exists (firstn i s), (dropWhile f t). repeat split.
    + exact Es.
    + discriminate.
    + rewrite <- Etk. apply takeWhile_all.
    + apply takeWhile_dropWhile.
  - destruct (IH name Hin) as (b & a & E & Hne & Hall & Hstop).
    simpl in E. exists (firstn i s ++ l ++ (c0 :: nm) ++ b), a.
    repeat split; try assumption.
    rewrite Es at 1. rewrite E. rewrite <- !app_assoc. reflexivity.
Qed.

Lemma class_rejects_e : charMatches false upperOrUnderscore 101 = false.
Proof. reflexivity. Qed.

(** The loop of the second pattern misses no [env.NAME]: a match that
    starts earlier ends before the [e] of [env.], because [e] is not in the
    class and [env.] does not overlap itself. *)
Lemma pattern2_finds (s : jsstring) (names : list jsstring) :
  Collected false (source pattern2) s names ->
  forall name, NameAfter (js "env.") s name -> In name names.
Proof.
  change (source pattern2) with (rseq [lit (js "env."); nameGroup]).
  induction 1 as [s Hs|s i y n names Hs Hc _ IH];
    intros name (before & after & E & Hne & Hall & Hstop);
    pose proof (matcher_at_name (js "env.") name after Hne Hall Hstop) as Hm;
    assert (Eskip : skipn (length before) s = js "env." ++ name ++ after)
      by (rewrite E, skipn_app, Nat.sub_diag, skipn_all; reflexivity).
  - rewrite <- Eskip in Hm. rewrite (scan_none _ _ _ Hs) in Hm. discriminate.
  - destruct (scan_some _ _ _ _ _ Hs) as (_ & Hy & Hmin).
    destruct (lt_eq_lt_dec i (length before)) as [[Hlt|Heq]|Hgt].
    + right. apply IH.
      assert (Ei : skipn i s = skipn i before ++ js "env." ++ name ++ after).
      { rewrite E, skipn_app.
        replace (i - length before)%nat with 0%nat by lia. reflexivity. }
      assert (Hlen : (0 < length (skipn i before))%nat)
        by (rewrite length_skipn; lia).
      rewrite Ei, matcher_literal_name in Hy.
      destruct (startsWith (skipn i before ++ js "env." ++ name ++ after)
                  (js "env.")) eqn:Est; [|discriminate].
      apply startsWith_app in Est.
      change (js "env.") with [101; 110; 118; 46] in *.
      destruct (skipn i before) as [|a [|b [|c [|d pre]]]];
        try (simpl in Hlen; lia); try (simpl in Est; congruence).
      cbn [length skipn app] in Hy.
      destruct (takeWhile (charMatches false upperOrUnderscore)
                  (pre ++ 101 :: 110 :: 118 :: 46 :: name ++ after));
        [discriminate|].
      injection Hy as <-. cbn [rest].
      rewrite dropWhile_app_stop by exact class_rejects_e.
      exists (dropWhile (charMatches false upperOrUnderscore) pre), after.
      repeat split; assumption.
    + left. subst i. rewrite Eskip, Hm in Hy. injection Hy as <-.
      simpl in Hc. congruence.
    + rewrite <- Eskip, (Hmin _ Hgt) in Hm. discriminate.
Qed.

Lemma NameAfter_longer (prefix l s name : jsstring) :
  NameAfter (prefix ++ l) s name -> NameAfter l s name.
Proof.
  intros (before & after & E & H). exists (before ++ prefix), after.
  split; [|exact H]. rewrite E, <- !app_assoc. reflexivity.
Qed.

Lemma withoutPattern1_patterns :
  Forall NamePattern (envPatterns detectorWithoutPattern1).
Proof.
  pose proof newDetector_patterns as H. inversion H. assumption.
Qed.

(** C10. The first pattern adds nothing: with or without it on the list,
    [detectScreams] returns the same set of candidates for every log text
    (the two arrays hold the same names, each once; their order can
    differ). *)
Theorem first_pattern_redundant (logContent : jsstring) :
  exists all5 last4,
    detectScreams newDetector logContent = Some (all5, newDetector) /\
    detectScreams detectorWithoutPattern1 logContent =
      Some (last4, detectorWithoutPattern1) /\
    (forall x, In x all5 <-> In x last4) /\
    Permutation all5 last4.
Proof.
  destruct (detectScreams_suspects newDetector logContent newDetector_patterns)
    as (all5 & Hrun5 & Hnd5 & Hin5).
  destruct (detectScreams_suspects detectorWithoutPattern1 logContent
              withoutPattern1_patterns) as (last4 & Hrun4 & Hnd4 & Hin4).
  exists all5, last4. split; [exact Hrun5|]. split; [exact Hrun4|].
  assert (Hsame : forall x, In x all5 <-> In x last4).
  { intros x. rewrite Hin5, Hin4. split.
    - intros (R & names & name & HR & Hc & Hn & Hx).
      destruct HR as [<-|HR].
      + destruct (whileExec_total logContent pattern2 pattern2_name)
          as (names2 & Hc2 & _).
        exists pattern2, names2, name. split; [left; reflexivity|].
        split; [exact Hc2|]. split; [|exact Hx].
        apply (pattern2_finds _ _ Hc2).
        apply (NameAfter_longer (js "process.") (js "env.")).
        apply (literal_names_after _ _ _ Hc). exact Hn.
      + exists R, names, name. auto.
    - intros (R & names & name & HR & H).
      exists R, names, name. split; [right; exact HR | exact H]. }
  split; [exact Hsame|].
  apply NoDup_Permutation; assumption.
Qed.

(** C6. The log text [process.env.API_KEY is undefined] has the single
    candidate [API_KEY] ([UNDEFINED] is not one: no pattern reads a name
    before [is undefined]), and without a [.env] file the classification is
    missing = [API_KEY], misconfigured = none. *)
Theorem api_key_scenario (w : World) :
  fs w (envPathOf w) = None ->
  detectScreams newDetector (js "process.env.API_KEY is undefined") =
    Some ([js "API_KEY"], newDetector) /\
  autopsy [js "API_KEY"] w =
    ([ExistsSync (envPathOf w)], Return (mkAutopsy [js "API_KEY"] [])).
Proof.
  intros H. split; [vm_compute; reflexivity|].
  rewrite autopsy_cases, H. reflexivity.
Qed.

(** ** The command line *)

(** C9. Run with no path argument, the tool prints the usage line, the
    example line and a tip, then exits with status 1; it looks at no file
    and prints nothing else. *)
Theorem usage_without_argument (w : World) :
  (length (argv w) < 3)%nat ->
  main w =
  ([ConsoleLog (js "Usage: node env-scream-detector.js <logfile>");
    ConsoleLog (js "Example: node env-scream-detector.js error.log");
    ConsoleLog (10 :: js "Pro tip: Your logs are probably screaming right now.")],
   Exit 1%nat).
Proof.
  intros H. apply Nat.ltb_lt in H. unfold main, bind, processArgv.
  cbv beta iota zeta. rewrite H. reflexivity.
Qed.

(** ** The tool always ends *)

Lemma finishes_ret {A : Type} (a : A) : Finishes (ret a).
Proof. intros w. discriminate. Qed.

Lemma finishes_bind {A B : Type} (m : IO A) (f : A -> IO B) :
  Finishes m -> (forall a, Finishes (f a)) -> Finishes (bind m f).
Proof.
  intros Hm Hf w. unfold bind. specialize (Hm w).
  destruct (m w) as [t1 [a| | |]]; simpl in *; try discriminate.
  - specialize (Hf a w). destruct (f a w) as [t2 o]. exact Hf.
  - congruence.
Qed.

Lemma finishes_consoleLog (line : jsstring) : Finishes (consoleLog line).
Proof. intros w. discriminate. Qed.

Lemma finishes_existsSync (path : jsstring) : Finishes (existsSync path).
Proof. intros w. discriminate. Qed.

Lemma finishes_readFileSync (path : jsstring) : Finishes (readFileSync path).
Proof.
  intros w. unfold readFileSync. simpl.
  destruct (fs w path) as [[c|]|]; discriminate.
Qed.

Lemma finishes_processExit {A : Type} (status : nat) :
  Finishes (@processExit A status).
Proof. intros w. discriminate. Qed.

Lemma finishes_processCwd : Finishes processCwd.
Proof. intros w. discriminate. Qed.

Lemma finishes_processArgv : Finishes processArgv.
Proof. intros w. discriminate. Qed.

Create HintDb finishes.

#[local] Hint Resolve finishes_ret finishes_consoleLog finishes_existsSync
  finishes_readFileSync finishes_processCwd finishes_processArgv : finishes.

Ltac finish :=
  repeat first
    [ solve [auto with finishes]
    | apply finishes_processExit
    | apply finishes_bind; [|intros ?]
    | match goal with
      | |- Finishes (if ?b then _ else _) => destruct b
      end ].

Lemma finishes_forEachLog (lines : list jsstring) : Finishes (forEachLog lines).
Proof. induction lines as [|line lines IH]; simpl; finish. Qed.

#[local] Hint Resolve finishes_forEachLog : finishes.

Lemma finishes_autopsy (suspects : list jsstring) : Finishes (autopsy suspects).
Proof. unfold autopsy. finish. Qed.

#[local] Hint Resolve finishes_autopsy : finishes.

Lemma finishes_analyze (logFile : jsstring) :
  Finishes (analyze newDetector logFile).
Proof.
  unfold analyze. finish.
  match goal with
  | |- Finishes (match detectScreams _ ?log with _ => _ end) =>
      destruct (detectScreams_suspects newDetector log newDetector_patterns)
        as (suspects & -> & _)
  end.
  finish.
Qed.

(** X16. Whatever the command line and the files, the run ends: by
    returning, by [process.exit], or by the exception of a file that cannot
    be read.  The bound on the loops of [detectScreams] is never reached:
    no pattern matches the empty text, so each loop ends. *)
Theorem main_finishes : Finishes main.
Proof.
  pose proof finishes_analyze as Hanalyze. unfold main. cbv zeta. finish.
Qed.

(** ** [analyze] and the command line, case by case *)

Lemma forEachLog_run (lines : list jsstring) (w : World) :
  forEachLog lines w = (map ConsoleLog lines, Return tt).
Proof.
  induction lines as [|line lines IH]; [reflexivity|].
  simpl. unfold bind, consoleLog. rewrite IH. reflexivity.
Qed.

(** The report part of [analyze], once [autopsy] has returned. *)
Lemma report_run (result : AutopsyResult) (w : World) :
  (consoleLog (55357 :: 56589 :: js " ENV SCREAM ANALYSIS REPORT") ;;
   consoleLog (repeat 61 40) ;;
   (if (0 <? length (missing result))%nat then
      consoleLog
        (10 :: 55357 :: 57000 :: js " MISSING VARIABLES (add to .env):") ;;
      forEachLog
        (map (fun varName => js "  - " ++ varName ++ js "=your_value_here")
           (missing result))
    else ret tt) ;;
   (if (0 <? length (misconfigured result))%nat then
      consoleLog
        (10 :: 9888 :: 65039 :: js "  MISCONFIGURED (check values in .env):") ;;
      forEachLog
        (map (fun varName => js "  - " ++ varName) (misconfigured result))
    else ret tt) ;;
   consoleLog
     (10 :: 55357 :: 56481 ::
        js " Remember: Environment variables should whisper, not scream.")) w =
  (map ConsoleLog (reportLines result), Return tt).
Proof.
  unfold reportLines, bind, consoleLog, ret.
  destruct (0 <? length (missing result))%nat,
           (0 <? length (misconfigured result))%nat;
    rewrite ?forEachLog_run;
    do 3 (cbn [app map]; rewrite ?map_app, ?app_nil_r, <- ?app_assoc);
    reflexivity.
Qed.

Lemma analyze_cases (this : EnvScreamDetector) (logFile : jsstring) (w : World) :
  analyze this logFile w =
  match fs w logFile with
  | None =>
      ([ExistsSync logFile;
        ConsoleLog (10060 :: js " Log file not found: " ++ logFile);
        ConsoleLog (js "Tip: Try screaming louder next time.")],
       Return tt)
  | Some Unreadable => ([ExistsSync logFile; ReadFileSync logFile], Throw logFile)
  | Some (File logContent) =>
      match detectScreams this logContent with
      | None => ([ExistsSync logFile; ReadFileSync logFile], Unfinished)
      | Some ([], _) =>
          ([ExistsSync logFile; ReadFileSync logFile;
            ConsoleLog
              (9989 :: js " No screams detected. Either perfect code or silent suffering.")],
           Return tt)
      | Some (suspects, _) =>
          match autopsy suspects w with
          | (t, Return result) =>
              ([ExistsSync logFile; ReadFileSync logFile] ++ t ++
               map ConsoleLog (reportLines result), Return tt)
          | (t, Throw path) =>
              ([ExistsSync logFile; ReadFileSync logFile] ++ t, Throw path)
          | (t, Exit status) =>
              ([ExistsSync logFile; ReadFileSync logFile] ++ t, Exit status)
          | (t, Unfinished) =>
              ([ExistsSync logFile; ReadFileSync logFile] ++ t, Unfinished)
          end
      end
  end.
Proof.
  unfold analyze. unfold bind at 1. unfold existsSync at 1.
  destruct (fs w logFile) as [[logContent|]|] eqn:E; cbn [negb].
  - unfold bind at 1. unfold readFileSync at 1. rewrite E.
    destruct (detectScreams this logContent) as [[[|x suspects] d]|];
      [reflexivity | | reflexivity].
    cbn [length Nat.eqb]. unfold bind at 1.
    destruct (autopsy (x :: suspects) w) as [t [result|path|status|]];
      try reflexivity.
    rewrite report_run. reflexivity.
  - unfold bind at 1. unfold readFileSync at 1. rewrite E. reflexivity.
  - reflexivity.
Qed.

Lemma main_cases (w : World) :
  main w =
  if (length (argv w) <? 3)%nat then
    ([ConsoleLog (js "Usage: node env-scream-detector.js <logfile>");
      ConsoleLog (js "Example: node env-scream-detector.js error.log");
      ConsoleLog (10 :: js "Pro tip: Your logs are probably screaming right now.")],
     Exit 1%nat)
  else analyze newDetector (nth 2 (argv w) []) w.
Proof.
  unfold main, bind, processArgv. cbv beta iota zeta.
  destruct (length (argv w) <? 3)%nat; [reflexivity|].
  unfold ret. cbv beta iota.
  destruct (analyze newDetector (nth 2 (argv w) []) w) as [t o]. reflexivity.
Qed.

(** X1. When the log file does not exist, [analyze] says so in two lines,
    naming the path it was given, and returns: it reads no file, does not
    look at [.env], and neither throws nor exits.  The instance plays no
    part. *)
Theorem analyze_missing_log (this : EnvScreamDetector) (logFile : jsstring)
    (w : World) :
  fs w logFile = None ->
  analyze this logFile w =
  ([ExistsSync logFile;
    ConsoleLog (10060 :: js " Log file not found: " ++ logFile);
    ConsoleLog (js "Tip: Try screaming louder next time.")],
   Return tt).
Proof. intros H. rewrite analyze_cases, H. reflexivity. Qed.

(** X2. When the log file exists but cannot be read, [analyze] ends with the
    exception of the read, having printed nothing. *)
Theorem analyze_unreadable_log (this : EnvScreamDetector) (logFile : jsstring)
    (w : World) :
  fs w logFile = Some Unreadable ->
  analyze this logFile w =
  ([ExistsSync logFile; ReadFileSync logFile], Throw logFile).
Proof. intros H. rewrite analyze_cases, H. reflexivity. Qed.

(** X3. When the log has candidates and [.env] exists but cannot be read,
    [analyze] ends with the exception of that read: the log has been read,
    and not one line of the report has been printed. *)
Theorem analyze_unreadable_env (this d : EnvScreamDetector)
    (logFile logContent name : jsstring) (others : list jsstring) (w : World) :
  fs w logFile = Some (File logContent) ->
  detectScreams this logContent = Some (name :: others, d) ->
  fs w (envPathOf w) = Some Unreadable ->
  analyze this logFile w =
  ([ExistsSync logFile; ReadFileSync logFile;
    ExistsSync (envPathOf w); ReadFileSync (envPathOf w)],
   Throw (envPathOf w)).
Proof.
  intros Hlog Hd Henv. rewrite analyze_cases, Hlog, Hd, autopsy_cases, Henv.
  reflexivity.
Qed.

(** X4. When the log has candidates and [.env] is absent or readable,
    [analyze] reads the log, consults [.env], and only then prints, in this
    order: the header, a rule of 40 [=], the missing names each as
    [  - NAME=your_value_here] under their heading, the misconfigured names
    each as [  - NAME] under theirs, and the closing remark; a section
    without names is left out, heading included.  It returns normally. *)
Theorem analyze_report (this d : EnvScreamDetector)
    (logFile logContent name : jsstring) (others : list jsstring) (w : World) :
  fs w logFile = Some (File logContent) ->
  detectScreams this logContent = Some (name :: others, d) ->
  fs w (envPathOf w) <> Some Unreadable ->
  analyze this logFile w =
  ([ExistsSync logFile; ReadFileSync logFile; ExistsSync (envPathOf w)] ++
   match fs w (envPathOf w) with
   | Some (File envContent) =>
       ReadFileSync (envPathOf w) ::
       map ConsoleLog
         (reportLines (classify (name :: others) (existingVarsOf envContent)))
   | _ => map ConsoleLog (reportLines (mkAutopsy (name :: others) []))
   end,
   Return tt).
Proof.
  intros Hlog Hd Henv. rewrite analyze_cases, Hlog, Hd, autopsy_cases.
  destruct (fs w (envPathOf w)) as [[envContent|]|]; [reflexivity | congruence |].
  unfold classify. cbn [arrIncludes existsb negb].
  rewrite filter_all by reflexivity. rewrite filter_none by reflexivity.
  reflexivity.
Qed.


Lemma Forall_ownEvent_logs (w : World) (lines : list jsstring) :
  Forall (ownEvent w) (map ConsoleLog lines).
Proof.
  induction lines as [|line lines IH]; simpl; constructor; simpl; auto.
Qed.

(** X6. Whatever the command line and the files, the only files the tool
    asks about or reads are the one named by its first argument and [.env]
    in the working directory; everything else it does is printing. *)
Theorem main_own_events (w : World) : Forall (ownEvent w) (fst (main w)).
Proof.
  rewrite main_cases.
  destruct (length (argv w) <? 3)%nat.
  - simpl. repeat constructor.
  - rewrite analyze_cases. set (logFile := nth 2 (argv w) []).
    assert (He : ownEvent w (ExistsSync logFile)) by (left; reflexivity).
    assert (Hr : ownEvent w (ReadFileSync logFile)) by (left; reflexivity).
    assert (Hee : ownEvent w (ExistsSync (envPathOf w))) by (right; reflexivity).
    assert (Her : ownEvent w (ReadFileSync (envPathOf w)))
      by (right; reflexivity).
    destruct (fs w logFile) as [[logContent|]|]; simpl;
      try (repeat constructor; assumption).
    destruct (detectScreams newDetector logContent)
      as [[[|x suspects] d]|]; simpl; try (repeat constructor; assumption).
    rewrite autopsy_cases.
    destruct (fs w (envPathOf w)) as [[envContent|]|]; simpl;
      repeat (constructor; try assumption); apply Forall_ownEvent_logs.
Qed.


(** X8. The classification depends only on which keys are declared: two
    reference arrays with the same elements, in any order and with any
    repetitions, classify every candidate sequence alike. *)
Theorem classify_same_keys (C R1 R2 : list jsstring) :
  (forall key, In key R1 <-> In key R2) ->
  classify C R1 = classify C R2.
Proof.
  intros H. unfold classify.
  assert (Hinc : forall x, arrIncludes R1 x = arrIncludes R2 x).
  { intros x. apply eq_true_iff_eq. rewrite !arrIncludes_In. apply H. }
  f_equal; apply filter_ext; intros x; rewrite Hinc; reflexivity.
Qed.

(** ** More on [detectScreams] *)

Lemma strIncludes_Substring (s l : jsstring) :
  strIncludes s l = true <-> Substring l s.
Proof.
  split.
  - induction s as [|c s IH]; simpl; rewrite orb_true_iff.
    + intros [H|H]; [|discriminate]. apply startsWith_app in H.
      exists [], (skipn (length l) []). exact H.
    + intros [H|H].
      * apply startsWith_app in H. exists [], (skipn (length l) (c :: s)).
        exact H.
      * apply (Substring_skip _ _ [c]). apply IH. exact H.
  - intros (b & a & ->). induction b as [|c b IH]; simpl.
    + assert (H : startsWith (l ++ a) l = true) by apply startsWith_prefix.
      destruct (l ++ a); simpl; rewrite H; reflexivity.
    + rewrite IH. apply orb_true_r.
Qed.

Lemma Substring_map (f : N -> N) (l s : jsstring) :
  Substring l s -> Substring (map f l) (map f s).
Proof.
  intros (b & a & ->). exists (map f b), (map f a).
  rewrite !map_app. reflexivity.
Qed.

Lemma Substring_inside (l s b a : jsstring) :
  Substring l s -> Substring l (b ++ s ++ a).
Proof.
  intros (b' & a' & ->). exists (b ++ b'), (a' ++ a).
  rewrite <- !app_assoc. reflexivity.
Qed.

Lemma Step_lit (ic : bool) (l : jsstring) :
  forall x y,
    Step ic (lit l) x y ->
    exists l', rest x = l' ++ rest y /\
               Forall2 (fun c c' => canon ic c = canon ic c') l l'.
Proof.
  induction l as [|c l IH]; intros x y; cbn [lit Step].
  - intros ->. exists []. split; [reflexivity | constructor].
  - intros (m & (ch & E & Hch & _) & H). destruct (IH _ _ H) as (l' & E' & Hl).
    exists (ch :: l'). split.
    + rewrite E, E'. reflexivity.
    + constructor; [|exact Hl]. apply N.eqb_eq. exact Hch.
Qed.

(** A match of a pattern holds the text of each of its literals, up to the
    case folding of the pattern. *)
Lemma match_holds_literal (ic : bool) (before after : list regex)
    (l t : jsstring) (y : MState) :
  matcher ic (rseq (before ++ lit l :: after)) (mkMState t []) Some = Some y ->
  exists l', Substring l' t /\
             Forall2 (fun c c' => canon ic c = canon ic c') l l'.
Proof.
  intros H. apply matcher_sound in H. destruct H as (y' & H & _).
  apply Step_rseq_app in H. destruct H as (m1 & H1 & H2).
  change (rseq (lit l :: after)) with (RSeq (lit l) (rseq after)) in H2.
  destruct H2 as (m2 & H2 & H3).
  destruct (Step_rest _ _ _ _ H1) as [b Eb].
  destruct (Step_lit _ _ _ _ H2) as (l' & El & Hl).
  exists l'. split; [|exact Hl].
  exists b, (rest m2). simpl in Eb. rewrite Eb, El. reflexivity.
Qed.

Lemma same_text_case_sensitive (l l' : jsstring) :
  Forall2 (fun c c' => canon false c = canon false c') l l' -> l' = l.
Proof. induction 1; simpl in *; congruence. Qed.

Lemma same_text_ignoring_case (l l' : jsstring) :
  Forall2 (fun c c' => canon true c = canon true c') l l' ->
  (forall c, In c l -> c < 128) ->
  map asciiUpper l' = map asciiUpper l.
Proof.
  induction 1 as [|c c' l l' Hc _ IH]; intros Hascii; [reflexivity|].
  simpl. rewrite IH by (intros a Ha; apply Hascii; right; exact Ha).
  f_equal. simpl in Hc.
  assert (Hlt : c < 128) by (apply Hascii; left; reflexivity).
  assert (Hcan : canonicalize c = asciiUpper c).
  { unfold canonicalize. destruct (N.ltb_spec c 128); [reflexivity | lia]. }
  assert (Hup : asciiUpper c < 128).
  { unfold asciiUpper. destruct ((97 <=? c) && (c <=? 122)); lia. }
  destruct (canonicalize_ascii c') as [_ Hc']; [rewrite <- Hc, Hcan; exact Hup|].
  congruence.
Qed.

(** The texts one of which every match of the five patterns holds. *)
Lemma match_is_loud (R : RegExp) (t : jsstring) (y : MState) :
  In R (envPatterns newDetector) ->
  matcher (ignoreCase R) (source R) (mkMState t []) Some = Some y ->
  quietLog t = false.
Proof.
  intros HR Hm. unfold quietLog.
  assert (Henv : Substring (js "env.") t ->
                 strIncludes (map asciiUpper t) (js "ENV.") = true).
  { intros H. apply strIncludes_Substring.
    apply (Substring_map asciiUpper) in H. exact H. }
  simpl in HR. destruct HR as [<-|[<-|[<-|[<-|[<-|[]]]]]].
  - apply (match_holds_literal false [] [nameGroup] (js "process.env.")) in Hm.
    destruct Hm as (l' & Hsub & Hl). apply same_text_case_sensitive in Hl.
    subst l'. rewrite Henv; [reflexivity|].
    destruct Hsub as (b & a & ->). exists (b ++ js "process."), a.
    rewrite <- !app_assoc. reflexivity.
  - apply (match_holds_literal false [] [nameGroup] (js "env.")) in Hm.
    destruct Hm as (l' & Hsub & Hl). apply same_text_case_sensitive in Hl.
    subst l'. rewrite Henv; [reflexivity | exact Hsub].
  - apply (match_holds_literal true
             [lit (js "Cannot read propert"); RPlus (RChar CsDot);
              lit (js "of undefined"); RStar (RChar CsDot)]
             [nameGroup] (js "env.")) in Hm.
    destruct Hm as (l' & Hsub & Hl).
    apply same_text_ignoring_case in Hl.
    + apply (Substring_map asciiUpper) in Hsub. rewrite Hl in Hsub.
      apply strIncludes_Substring in Hsub.
      change (map asciiUpper (js "env.")) with (js "ENV.") in Hsub.
      rewrite Hsub. reflexivity.
    + intros c Hc. vm_compute in Hc.
      repeat (destruct Hc as [<-|Hc]; [reflexivity|]). destruct Hc.
  - apply (match_holds_literal false [nameGroup] [] (js " is not defined")) in Hm.
    destruct Hm as (l' & Hsub & Hl). apply same_text_case_sensitive in Hl.
    subst l'. apply strIncludes_Substring in Hsub. rewrite Hsub.
    cbn [negb]. rewrite andb_false_r. reflexivity.
  - apply (match_holds_literal false [] [nameGroup] (js "Missing ")) in Hm.
    destruct Hm as (l' & Hsub & Hl). apply same_text_case_sensitive in Hl.
    subst l'. apply strIncludes_Substring in Hsub. rewrite Hsub.
    cbn [negb]. apply andb_false_r.
Qed.

Lemma quietLog_skipn (n : nat) (t : jsstring) :
  quietLog (skipn n t) = false -> quietLog t = false.
Proof.
  unfold quietLog. rewrite !andb_false_iff, !negb_false_iff.
  rewrite !strIncludes_Substring, <- skipn_map.
  intros [[H|H]|H]; apply Substring_skipn in H; auto.
Qed.

Lemma quiet_no_suspects (logContent : jsstring) :
  quietLog logContent = true ->
  detectScreams newDetector logContent = Some ([], newDetector).
Proof.
  intros Hq.
  destruct (detectScreams_suspects newDetector logContent newDetector_patterns)
    as (suspects & Hrun & _ & Hin).
  change (resetAll newDetector) with newDetector in Hrun.
  destruct suspects as [|x suspects]; [exact Hrun|]. exfalso.
  destruct (proj1 (Hin x) (or_introl eq_refl))
    as (R & names & name & HR & Hc & Hn & _).
  remember (skipn (lastIndex R) logContent) as s0 eqn:Es0.
  destruct Hc as [s Hs|s i y n names Hs _ _]; [destruct Hn|]. subst s.
  destruct (scan_some _ _ _ _ _ Hs) as (_ & Hy & _).
  apply (match_is_loud R _ _ HR) in Hy.
  apply quietLog_skipn in Hy. apply quietLog_skipn in Hy. congruence.
Qed.

(** X9. A log that holds none of the texts [env.] (in any letter case),
    [ is not defined] and [Missing ] has no candidate. *)
Theorem quiet_log_no_candidates (logContent : jsstring) :
  quietLog logContent = true ->
  detectScreams newDetector logContent = Some ([], newDetector).
Proof. exact (quiet_no_suspects logContent). Qed.

(** X10. On such a log [analyze] reads the log, prints the one line that
    says no scream was detected, and returns; [.env] is not looked at. *)
Theorem analyze_quiet_log (logFile logContent : jsstring) (w : World) :
  fs w logFile = Some (File logContent) ->
  quietLog logContent = true ->
  analyze newDetector logFile w =
  ([ExistsSync logFile; ReadFileSync logFile;
    ConsoleLog
      (9989 :: js " No screams detected. Either perfect code or silent suffering.")],
   Return tt).
Proof.
  intros Hlog Hq. rewrite analyze_cases, Hlog, (quiet_no_suspects _ Hq).
  reflexivity.
Qed.

(** X11. The array [detectScreams] returns holds no name twice, whatever
    the log and whatever [lastIndex] the patterns start with. *)
Theorem detectScreams_no_repeats (d : EnvScreamDetector)
    (logContent : jsstring) :
  resetAll d = newDetector ->
  exists suspects,
    detectScreams d logContent = Some (suspects, newDetector) /\
    NoDup suspects.
Proof.
  intros Hreset.
  destruct (detectScreams_suspects d logContent (resetAll_patterns d Hreset))
    as (suspects & Hrun & Hnd & _).
  exists suspects. rewrite <- Hreset. auto.
Qed.

(** X12. Every [env.NAME] of the log is found: when [env.] is followed by a
    run of [A-Z] and [_] that is not empty and ends where the name ends,
    that name is a candidate.  (So is every [process.env.NAME].) *)
Theorem env_name_is_candidate (before name after : jsstring) :
  name <> [] -> allOf isUpperOrUnderscore name ->
  match after with
  | [] => True
  | c :: _ => isUpperOrUnderscore c = false
  end ->
  exists suspects,
    detectScreams newDetector (before ++ js "env." ++ name ++ after) =
      Some (suspects, newDetector) /\
    In name suspects.
Proof.
  intros Hne Hall Hstop.
  set (logContent := before ++ js "env." ++ name ++ after).
  destruct (detectScreams_suspects newDetector logContent newDetector_patterns)
    as (suspects & Hrun & _ & Hin).
  exists suspects. split; [exact Hrun|]. apply Hin.
  destruct (whileExec_total logContent pattern2 pattern2_name)
    as (names & Hc & _).
  exists pattern2, names, name. split; [right; left; reflexivity|].
  split; [exact Hc|]. split.
  - apply (pattern2_finds _ _ Hc). exists before, after.
    split; [reflexivity|]. split; [exact Hne|]. split.
    + unfold allOf in *. eapply Forall_impl; [|exact Hall].
      intros c Hc'. rewrite class_case_sensitive. exact Hc'.
    + destruct after as [|c after]; [reflexivity|]. cbn [takeWhile].
      rewrite class_case_sensitive, Hstop. reflexivity.
  - symmetry. apply toUpperCase_upper. exact Hall.
Qed.

(** ** Keys of [.env], padded and in any letter case *)

Lemma split_app (sep : N) (a b : jsstring) :
  split sep (a ++ sep :: b) = split sep a ++ split sep b.
Proof.
  induction a as [|c a IH]; simpl.
  - rewrite N.eqb_refl. reflexivity.
  - destruct (c =? sep); [rewrite IH; reflexivity|].
    rewrite IH. destruct (split sep a) as [|piece pieces] eqn:E;
      [exfalso; exact (split_nonempty _ _ E) | reflexivity].
Qed.

Lemma split_whole (sep : N) (line : jsstring) :
  ~ In sep line -> split sep line = [line].
Proof.
  induction line as [|c line IH]; simpl; intros H; [reflexivity|].
  destruct (N.eqb_spec c sep) as [->|_]; [exfalso; apply H; auto|].
  rewrite IH by (intros Hin; apply H; auto). reflexivity.
Qed.

(** A text between newlines (or the ends of the content) is a line. *)
Lemma line_in_split (above line below : jsstring) :
  ~ In 10 line ->
  (above = [] \/ exists a, above = a ++ [10]) ->
  (below = [] \/ exists b, below = 10 :: b) ->
  In line (split 10 (above ++ line ++ below)).
Proof.
  intros Hline Ha Hb.
  assert (H : In line (split 10 (line ++ below))).
  { destruct Hb as [->|[b ->]].
    - rewrite app_nil_r, split_whole by exact Hline. left. reflexivity.
    - rewrite split_app, split_whole by exact Hline. left. reflexivity. }
  destruct Ha as [->|[a ->]]; [exact H|].
  rewrite <- app_assoc. simpl. rewrite split_app. apply in_or_app. auto.
Qed.

Lemma beforeFirst_app (sep : N) (a v : jsstring) :
  ~ In sep a -> beforeFirst sep (a ++ sep :: v) = a.
Proof.
  induction a as [|c a IH]; simpl; intros H.
  - rewrite N.eqb_refl. reflexivity.
  - destruct (N.eqb_spec c sep) as [->|_]; [exfalso; apply H; auto|].
    rewrite IH by (intros Hin; apply H; auto). reflexivity.
Qed.

Lemma dropWhile_all_app (f : N -> bool) (l s : jsstring) :
  allOf f l -> dropWhile f (l ++ s) = dropWhile f s.
Proof.
  unfold allOf. induction 1 as [|c l Hc _ IH]; simpl; [reflexivity|].
  rewrite Hc. exact IH.
Qed.

Lemma dropWhile_kept (f : N -> bool) (c : N) (s : jsstring) :
  f c = false -> dropWhile f (c :: s) = c :: s.
Proof. intros H. simpl. rewrite H. reflexivity. Qed.

Lemma isNameChar_kept (c : N) :
  isNameChar c = true -> isTrimmed c = false /\ c <> 61 /\ c <> 10.
Proof.
  intros H. unfold isNameChar, isUpperOrUnderscore in H.
  rewrite !orb_true_iff, !andb_true_iff, !N.leb_le, N.eqb_eq in H.
  assert (Hc : 65 <= c <= 122) by lia. clear H.
  split; [|lia].
  unfold isTrimmed, isWhiteSpace, isLineTerminator.
  repeat match goal with
         | |- context [c =? ?k] => destruct (N.eqb_spec c k); [lia|]
         | |- context [?k <=? c] => destruct (N.leb_spec k c)
         | |- context [c <=? ?k] => destruct (N.leb_spec c k)
         end; try lia; reflexivity.
Qed.

Lemma isWhiteSpace_kept (c : N) :
  isWhiteSpace c = true -> isTrimmed c = true /\ c <> 61 /\ c <> 10.
Proof.
  intros H. unfold isTrimmed. rewrite H. split; [reflexivity|].
  split; intros ->; discriminate H.
Qed.

(** [trim] takes the white space off a padded name. *)
Lemma trim_padded (lead key trail : jsstring) :
  allOf isWhiteSpace lead -> allOf isWhiteSpace trail ->
  allOf isNameChar key -> key <> [] ->
  trim (lead ++ key ++ trail) = key.
Proof.
  intros Hlead Htrail Hkey Hne. unfold trim.
  assert (Hl : allOf isTrimmed lead).
  { unfold allOf in *. eapply Forall_impl; [|exact Hlead].
    intros c Hc. apply isWhiteSpace_kept. exact Hc. }
  assert (Ht : allOf isTrimmed (rev trail)).
  { unfold allOf in *. apply Forall_rev. eapply Forall_impl; [|exact Htrail].
    intros c Hc. apply isWhiteSpace_kept. exact Hc. }
  assert (Hk : forall c, In c key -> isTrimmed c = false).
  { intros c Hc. unfold allOf in Hkey. rewrite Forall_forall in Hkey.
    apply isNameChar_kept. auto. }
  rewrite (dropWhile_all_app _ _ _ Hl).
  destruct key as [|c key]; [congruence|].
  change ((c :: key) ++ trail) with (c :: key ++ trail).
  rewrite dropWhile_kept by (apply Hk; left; reflexivity).
  change (c :: key ++ trail) with ((c :: key) ++ trail).
  rewrite rev_app_distr, (dropWhile_all_app _ _ _ Ht).
  destruct (rev (c :: key)) as [|c' rk] eqn:E.
  - apply (f_equal (@length N)) in E. rewrite length_rev in E. discriminate.
  - rewrite dropWhile_kept.
    + rewrite <- E. apply rev_involutive.
    + apply Hk. apply in_rev. rewrite E. left. reflexivity.
Qed.

Lemma padded_line_key (lead key trail value : jsstring) :
  allOf isWhiteSpace lead -> allOf isWhiteSpace trail ->
  allOf isNameChar key -> key <> [] ->
  toUpperCase (trim (nth 0 (split 61 (lead ++ key ++ trail ++ 61 :: value)) []))
  = map asciiUpper key /\
  strIncludes (lead ++ key ++ trail ++ 61 :: value) (js "=") = true.
Proof.
  intros Hlead Htrail Hkey Hne.
  assert (Hno : ~ In 61 (lead ++ key ++ trail)).
  { unfold allOf in *. rewrite Forall_forall in *.
    rewrite !in_app_iff. intros [H|[H|H]].
    - apply Hlead in H. apply isWhiteSpace_kept in H. tauto.
    - apply Hkey in H. apply isNameChar_kept in H. tauto.
    - apply Htrail in H. apply isWhiteSpace_kept in H. tauto. }
  split.
  - rewrite split_head.
    replace (lead ++ key ++ trail ++ 61 :: value)
      with ((lead ++ key ++ trail) ++ 61 :: value)
      by (rewrite <- !app_assoc; reflexivity).
    rewrite beforeFirst_app by exact Hno.
    rewrite trim_padded by assumption.
    apply toUpperCase_name. exact Hkey.
  - apply strIncludes_Substring. exists (lead ++ key ++ trail), value.
    rewrite <- !app_assoc. reflexivity.
Qed.

(** X13. A line of [.env] declares its key whatever the white space around
    the key, the letter case of the key and the value: with a line made of
    white space, a name of ASCII letters and underscores, white space, [=]
    and any value, the upper-cased name is declared, so as a candidate it is
    misconfigured and not missing. *)
Theorem padded_key_is_declared (w : World)
    (above lead key trail value below : jsstring) (suspects : list jsstring) :
  fs w (envPathOf w) =
    Some (File (above ++ (lead ++ key ++ trail ++ 61 :: value) ++ below)) ->
  (above = [] \/ exists a, above = a ++ [10]) ->
  (below = [] \/ exists b, below = 10 :: b) ->
  allOf isWhiteSpace lead -> allOf isWhiteSpace trail ->
  allOf isNameChar key -> key <> [] ->
  ~ In 10 value ->
  In (map asciiUpper key) suspects ->
  exists t result,
    autopsy suspects w = (t, Return result) /\
    In (map asciiUpper key) (misconfigured result) /\
    ~ In (map asciiUpper key) (missing result).
Proof.
  intros Hfs Ha Hb Hlead Htrail Hkey Hne Hvalue Hin.
  rewrite autopsy_cases, Hfs. eexists. eexists. split; [reflexivity|].
  set (line := lead ++ key ++ trail ++ 61 :: value) in *.
  assert (Hline : ~ In 10 line).
  { unfold line, allOf in *. rewrite Forall_forall in *.
    rewrite !in_app_iff. simpl. intros [H|[H|[H|[H|H]]]].
    - apply Hlead in H. apply isWhiteSpace_kept in H. tauto.
    - apply Hkey in H. apply isNameChar_kept in H. tauto.
    - apply Htrail in H. apply isWhiteSpace_kept in H. tauto.
    - discriminate H.
    - exact (Hvalue H). }
  destruct (padded_line_key lead key trail value Hlead Htrail Hkey Hne)
    as [Hk Heq]. fold line in Hk, Heq.
  assert (Hdecl : In (map asciiUpper key)
                    (existingVarsOf (above ++ line ++ below))).
  { unfold existingVarsOf. apply in_map_iff. exists line.
    split; [exact Hk|]. apply filter_In. split; [|exact Heq].
    apply line_in_split; assumption. }
  rewrite misconfigured_In, missing_In. tauto.
Qed.

(** ** The fourth pattern finds every [NAME is not defined] *)

(** A greedy repetition of a class gives back nothing when the continuation
    refuses every state that still starts inside the class: only the
    longest run is offered with a chance of success. *)
Lemma repeat_class_backtrack (cs : charset) (k : Continuation) :
  (forall y ch s', rest y = ch :: s' -> charMatches false cs ch = true ->
                   k y = None) ->
  forall n x,
    (length (rest x) <= n)%nat ->
    repeatMatcher (matcher false (RChar cs)) n x k =
    k (mkMState (dropWhile (charMatches false cs) (rest x)) (caps x)).
Proof.
  intros Hk. set (m := matcher false (RChar cs)).
  induction n as [|n IH]; intros [s c] Hn; cbn [rest caps] in *.
  - destruct s; [reflexivity | simpl in Hn; lia].
  - cbn [repeatMatcher]. unfold m at 1. rewrite matcher_char. cbn [rest caps].
    destruct s as [|ch s]; [reflexivity|]. cbn [dropWhile].
    destruct (charMatches false cs ch) eqn:E; [|reflexivity].
    cbn [rest]. destruct (Nat.ltb_spec (length s) (length (ch :: s)));
      [|simpl in *; lia].
    rewrite IH by (simpl in *; lia). cbn [rest caps].
    destruct (k (mkMState (dropWhile (charMatches false cs) s) c)) eqn:Ek;
      [reflexivity|].
    apply (Hk (mkMState (ch :: s) c) ch s eq_refl E).
Qed.

Lemma matcher_nameGroup_then (x : MState) (k : Continuation) :
  (forall y ch s', rest y = ch :: s' ->
                   charMatches false upperOrUnderscore ch = true ->
                   k y = None) ->
  matcher false nameGroup x k =
  match takeWhile (charMatches false upperOrUnderscore) (rest x) with
  | [] => None
  | name =>
      k (mkMState (dropWhile (charMatches false upperOrUnderscore) (rest x))
           ((1%nat, name) :: caps x))
  end.
Proof.
  intros Hk. destruct x as [s c]. unfold nameGroup.
  rewrite matcher_group, matcher_plus, matcher_char. cbn [rest caps].
  destruct s as [|ch s]; [reflexivity|].
  cbn [takeWhile dropWhile].
  destruct (charMatches false upperOrUnderscore ch) eqn:E; [|reflexivity].
  rewrite repeat_class_backtrack;
    [|intros y ch' s' Hy Hch; apply (Hk _ ch' s'); [exact Hy | exact Hch]
     | cbn [rest]; lia].
  cbn [rest caps]. do 3 f_equal.
  pose proof (dropWhile_length (charMatches false upperOrUnderscore) s) as Hlen.
  replace (length (ch :: s)
           - length (dropWhile (charMatches false upperOrUnderscore) s))%nat
    with (S (length s
             - length (dropWhile (charMatches false upperOrUnderscore) s)))
    by (cbn [length]; lia).
  cbn [firstn]. rewrite firstn_takeWhile. reflexivity.
Qed.

(** The name group followed by a literal that starts outside the class. *)
Lemma matcher_name_literal (c0 : N) (l0 s : jsstring) :
  charMatches false upperOrUnderscore c0 = false ->
  matcher false (rseq [nameGroup; lit (c0 :: l0)]) (mkMState s []) Some =
  match takeWhile (charMatches false upperOrUnderscore) s with
  | [] => None
  | name =>
      if startsWith (dropWhile (charMatches false upperOrUnderscore) s) (c0 :: l0)
      then Some (mkMState
                   (skipn (length (c0 :: l0))
                      (dropWhile (charMatches false upperOrUnderscore) s))
                   [(1%nat, name)])
      else None
  end.
Proof.
  intros Hc0. change (rseq [nameGroup; lit (c0 :: l0)])
    with (RSeq nameGroup (RSeq (lit (c0 :: l0)) REmpty)).
  change (matcher false (RSeq nameGroup (RSeq (lit (c0 :: l0)) REmpty))
            (mkMState s []) Some)
    with (matcher false nameGroup (mkMState s [])
            (fun y => matcher false (lit (c0 :: l0)) y Some)).
  rewrite matcher_nameGroup_then.
  - cbn [rest caps].
    destruct (takeWhile (charMatches false upperOrUnderscore) s);
      [reflexivity|].
    rewrite matcher_lit. reflexivity.
  - intros y ch s' Hy Hch. rewrite matcher_lit, Hy. cbn [startsWith].
    destruct (N.eqb_spec c0 ch) as [->|_]; [congruence | reflexivity].
Qed.

Lemma takeWhile_app_stop (f : N -> bool) (l t : jsstring) (c : N) :
  f c = false -> takeWhile f (l ++ c :: t) = takeWhile f l.
Proof.
  intros Hc. induction l as [|a l IH]; simpl.
  - rewrite Hc. reflexivity.
  - destruct (f a); [rewrite IH|]; reflexivity.
Qed.

Lemma startsWith_short (q t l : jsstring) (ch : N) :
  startsWith (q ++ ch :: t) l = true -> ~ In ch l ->
  (length l <= length q)%nat.
Proof.
  revert l. induction q as [|a q IH]; intros [|b l]; simpl; try lia.
  - rewrite andb_true_iff, N.eqb_eq. intros [-> _] H. exfalso. apply H. auto.
  - rewrite andb_true_iff. intros [_ H] Hin.
    apply IH in H; [lia | intros Hl; apply Hin; auto].
Qed.

Lemma skipn_snoc (k : nat) (u : jsstring) (c : N) :
  skipn k (u ++ [c]) = [] \/ exists b, skipn k (u ++ [c]) = b ++ [c].
Proof.
  revert u. induction k as [|k IH]; intros u.
  - right. exists u. reflexivity.
  - destruct u as [|a u]; simpl; [left; destruct k; reflexivity | apply IH].
Qed.

Lemma notDefined_outside_class :
  Forall (fun a => charMatches false upperOrUnderscore a = false)
    (js " is not defined").
Proof. repeat constructor. Qed.

Lemma pattern4_finds (s : jsstring) (names : list jsstring) :
  Collected false (source pattern4) s names ->
  forall before name after,
    s = before ++ name ++ js " is not defined" ++ after ->
    name <> [] -> allOf (charMatches false upperOrUnderscore) name ->
    (before = [] \/
     exists b c, before = b ++ [c] /\
                 charMatches false upperOrUnderscore c = false) ->
    In name names.
Proof.
  change (source pattern4)
    with (rseq [nameGroup; lit (32 :: js "is not defined")]).
  set (f := charMatches false upperOrUnderscore).
  set (l := js " is not defined").
  assert (Hl : forall a, In a l -> f a = false)
    by (apply Forall_forall; exact notDefined_outside_class).
  assert (Hat : forall name after,
             name <> [] -> allOf f name ->
             matcher false (rseq [nameGroup; lit (32 :: js "is not defined")])
               (mkMState (name ++ l ++ after) []) Some =
             Some (mkMState after [(1%nat, name)])).
  { intros name after Hne Hall. rewrite matcher_name_literal by reflexivity.
    fold f. destruct (takeWhile_app f name (l ++ after) Hall eq_refl) as [-> ->].
    destruct name; [congruence|].
    change (32 :: js "is not defined") with l. rewrite startsWith_prefix.
    rewrite skipn_app, Nat.sub_diag, skipn_all. reflexivity. }
  induction 1 as [s Hs|s i y n names Hs Hc _ IH];
    intros before name after E Hne Hall Hleft;
    pose proof (Hat name after Hne Hall) as Hm;
    assert (Eskip : skipn (length before) s = name ++ l ++ after)
      by (rewrite E, skipn_app, Nat.sub_diag, skipn_all; reflexivity).
  - rewrite <- Eskip in Hm. rewrite (scan_none _ _ _ Hs) in Hm. discriminate.
  - destruct (scan_some _ _ _ _ _ Hs) as (_ & Hy & Hmin).
    destruct (lt_eq_lt_dec i (length before)) as [[Hlt|Heq]|Hgt].
    + right. destruct Hleft as [->|(b & c & -> & Hc0)]; [simpl in Hlt; lia|].
      rewrite length_app in Hlt. simpl in Hlt.
      assert (Ei : skipn i s = skipn i b ++ c :: name ++ l ++ after).
      { rewrite E, <- app_assoc, skipn_app.
        replace (i - length b)%nat with 0%nat by lia. reflexivity. }
      rewrite Ei, matcher_name_literal in Hy by reflexivity. fold f in Hy.
      rewrite takeWhile_app_stop, dropWhile_app_stop in Hy by exact Hc0.
      destruct (takeWhile f (skipn i b)); [discriminate|].
      change (32 :: js "is not defined") with l in Hy.
      set (q := dropWhile f (skipn i b)) in *.
      destruct (startsWith (q ++ c :: name ++ l ++ after) l) eqn:Est;
        [|discriminate].
      destruct name as [|ch name]; [congruence|].
      assert (Hch : ~ In ch l).
      { intros Hin. apply Hl in Hin. unfold allOf in Hall.
        inversion Hall; subst. congruence. }
      assert (Hlen : (length l <= length (q ++ [c]))%nat).
      { apply (startsWith_short (q ++ [c]) (name ++ l ++ after) l ch);
          [|exact Hch].
        rewrite <- app_assoc. exact Est. }
      assert (Er : skipn (length l) (q ++ c :: (ch :: name) ++ l ++ after) =
                   skipn (length l) (q ++ [c]) ++ (ch :: name) ++ l ++ after).
      { replace (q ++ c :: (ch :: name) ++ l ++ after)
          with ((q ++ [c]) ++ (ch :: name) ++ l ++ after)
          by (rewrite <- app_assoc; reflexivity).
        rewrite skipn_app.
        replace (length l - length (q ++ [c]))%nat with 0%nat by lia.
        reflexivity. }
      rewrite Er in Hy.
      destruct (skipn_snoc (length l) q c) as [Eb|[b' Eb]];
        rewrite Eb in Hy; injection Hy as <-; cbn [rest].
      * apply (IH [] (ch :: name) after); auto.
      * apply (IH (b' ++ [c]) (ch :: name) after); auto.
        right. exists b', c. auto.
    + left. subst i. rewrite Eskip, Hm in Hy. injection Hy as <-.
      simpl in Hc. congruence.
    + rewrite <- Eskip, (Hmin _ Hgt) in Hm. discriminate.
Qed.

(** X14. Every [NAME is not defined] of the log is found: when a whole run
    of [A-Z] and [_] (not empty, and not the tail of a longer run) stands
    right before [ is not defined], that name is a candidate. *)
Theorem not_defined_name_is_candidate (before name after : jsstring) :
  name <> [] -> allOf isUpperOrUnderscore name ->
  match rev before with
  | [] => True
  | c :: _ => isUpperOrUnderscore c = false
  end ->
  exists suspects,
    detectScreams newDetector
      (before ++ name ++ js " is not defined" ++ after) =
      Some (suspects, newDetector) /\
    In name suspects.
Proof.
  intros Hne Hall Hleft.
  set (logContent := before ++ name ++ js " is not defined" ++ after).
  destruct (detectScreams_suspects newDetector logContent newDetector_patterns)
    as (suspects & Hrun & _ & Hin).
  exists suspects. split; [exact Hrun|]. apply Hin.
  destruct (whileExec_total logContent pattern4 pattern4_name)
    as (names & Hc & _).
  exists pattern4, names, name. split; [simpl; tauto|].
  split; [exact Hc|]. split.
  - apply (pattern4_finds _ _ Hc before name after).
    + reflexivity.
    + exact Hne.
    + unfold allOf in *. eapply Forall_impl; [|exact Hall].
      intros c Hc'. rewrite class_case_sensitive. exact Hc'.
    + destruct (rev before) as [|c r] eqn:E.
      * left. apply (f_equal (@rev N)) in E. rewrite rev_involutive in E.
        exact E.
      * right. exists (rev r), c. split.
        -- apply (f_equal (@rev N)) in E. rewrite rev_involutive in E.
           exact E.
        -- rewrite class_case_sensitive. exact Hleft.
  - symmetry. apply toUpperCase_upper. exact Hall.
Qed.

(** ** The fifth pattern and the first [Missing NAME] *)

Lemma startsWith_left (q t l : jsstring) :
  startsWith (q ++ t) l = true -> (length l <= length q)%nat ->
  startsWith q l = true.
Proof.
  revert l. induction q as [|a q IH]; intros [|b l]; simpl; try reflexivity;
    try lia.
  rewrite !andb_true_iff. intros [Hab H] Hlen. split; [exact Hab|].
  apply IH; [exact H | lia].
Qed.

(** X15. The first [Missing NAME] of the log is found: when [Missing ] does
    not occur before it, and it is followed by a run of [A-Z] and [_] that
    is not empty and ends where the name ends, that name is a candidate.
    (A later one can be lost in an earlier match: see
    [later_missing_name_lost].) *)
Theorem first_missing_name_is_candidate (before name after : jsstring) :
  strIncludes before (js "Missing ") = false ->
  name <> [] -> allOf isUpperOrUnderscore name ->
  match after with
  | [] => True
  | c :: _ => isUpperOrUnderscore c = false
  end ->
  exists suspects,
    detectScreams newDetector (before ++ js "Missing " ++ name ++ after) =
      Some (suspects, newDetector) /\
    In name suspects.
Proof.
  intros Hfirst Hne Hall Hstop.
  remember (before ++ js "Missing " ++ name ++ after) as logContent eqn:Elog.
  destruct (detectScreams_suspects newDetector logContent newDetector_patterns)
    as (suspects & Hrun & _ & Hin).
  exists suspects. split; [exact Hrun|]. apply Hin. clear Hrun Hin suspects.
  destruct (whileExec_total logContent pattern5 pattern5_name)
    as (names & Hc & _).
  exists pattern5, names, name. split; [simpl; tauto|].
  split; [exact Hc|]. split; [|symmetry; apply toUpperCase_upper; exact Hall].
  assert (Hall' : allOf (charMatches false upperOrUnderscore) name).
  { unfold allOf in *. eapply Forall_impl; [|exact Hall].
    intros c Hc'. rewrite class_case_sensitive. exact Hc'. }
  assert (Hstop' : takeWhile (charMatches false upperOrUnderscore) after = []).
  { destruct after as [|c after]; [reflexivity|]. cbn [takeWhile].
    rewrite class_case_sensitive, Hstop. reflexivity. }
  pose proof (matcher_at_name (js "Missing ") name after Hne Hall' Hstop') as Hm.
  change (source pattern5) with (rseq [lit (js "Missing "); nameGroup]) in Hc.
  change (ignoreCase pattern5) with false in Hc. simpl skipn in Hc.
  destruct Hc as [s Hs|s i y n names Hs Hcap _];
    assert (Eskip : skipn (length before) s = js "Missing " ++ name ++ after)
      by (rewrite Elog, skipn_app, Nat.sub_diag, skipn_all; reflexivity).
  - rewrite <- Eskip, (scan_none _ _ _ Hs) in Hm. discriminate.
  - left. destruct (scan_some _ _ _ _ _ Hs) as (_ & Hy & Hmin).
    destruct (lt_eq_lt_dec i (length before)) as [[Hlt|Heq]|Hgt].
    + exfalso.
      assert (Ei : skipn i s =
                   skipn i before ++ js "Missing " ++ name ++ after).
      { rewrite Elog, skipn_app.
        replace (i - length before)%nat with 0%nat by lia. reflexivity. }
      assert (Hlen : (0 < length (skipn i before))%nat)
        by (rewrite length_skipn; lia).
      assert (Hsuffix : strIncludes (skipn i before) (js "Missing ") = false).
      { destruct (strIncludes (skipn i before) (js "Missing ")) eqn:Einc;
          [|reflexivity].
        apply strIncludes_Substring, Substring_skipn in Einc.
        apply strIncludes_Substring in Einc. congruence. }
      rewrite Ei, matcher_literal_name in Hy.
      destruct (startsWith (skipn i before ++ js "Missing " ++ name ++ after)
                  (js "Missing ")) eqn:Est; [|discriminate].
      destruct (le_lt_dec (length (js "Missing ")) (length (skipn i before)))
        as [Hle|Hshort].
      * apply startsWith_left in Est; [|exact Hle].
        assert (Hinc : strIncludes (skipn i before) (js "Missing ") = true).
        { apply strIncludes_Substring. apply startsWith_app in Est.
          exists [], (skipn (length (js "Missing ")) (skipn i before)).
          exact Est. }
        congruence.
      * apply startsWith_app in Est.
        change (js "Missing ") with [77; 105; 115; 115; 105; 110; 103; 32] in *.
        destruct (skipn i before)
          as [|a1 [|a2 [|a3 [|a4 [|a5 [|a6 [|a7 [|a8 pre]]]]]]]];
          simpl in Hlen, Hshort; try lia; simpl in Est; congruence.
    + subst i. rewrite Eskip, Hm in Hy. injection Hy as <-.
      simpl in Hcap. congruence.
    + rewrite <- Eskip, (Hmin _ Hgt) in Hm. discriminate.
Qed.

End Host.

(** ** Closed instances *)

(** The classifier of C5 on a world without [.env]. *)
Lemma autopsy_without_env_file_witness :
  autopsy plainHost [js "API_KEY"; js "DATABASE_URL"] emptyWorld =
  ([ExistsSync (js "/app/.env")],
   Return (mkAutopsy [js "API_KEY"; js "DATABASE_URL"] [])).
Proof.
  exact (autopsy_without_env_file plainHost emptyWorld
           [js "API_KEY"; js "DATABASE_URL"] eq_refl).
Defined.

(** C2 as stated fails: with [# NAME=value] as the only line of [.env], the
    candidate [NAME] is classified as missing, not as misconfigured. *)
Lemma commented_declaration_counterexample :
  autopsy plainHost [js "NAME"] commentedWorld =
  ([ExistsSync (js "/app/.env"); ReadFileSync (js "/app/.env")],
   Return (mkAutopsy [js "NAME"] [])) /\
  existingVarsOf plainHost (js "# NAME=value") = [js "# NAME"].
Proof. split; vm_compute; reflexivity. Qed.

(** The amended C2 on the same world: [NAME] is missing. *)
Lemma commented_line_witness :
  exists t r,
    autopsy plainHost [js "NAME"] commentedWorld = (t, Return r) /\
    In (js "NAME") (missing r) /\ ~ In (js "NAME") (misconfigured r).
Proof.
  destruct (commented_line_declares_hash_key plainHost commentedWorld
              (js "# NAME=value") [js "NAME"] eq_refl)
    as (t & r & Hrun & _ & _ & Hall).
  exists t, r. split; [exact Hrun|]. apply Hall.
  - intros line [<-|[]] _. reflexivity.
  - left. reflexivity.
  - discriminate.
Defined.

(** C3 as stated fails: two logs that differ only in the case of the name
    have different candidates. *)
Lemma lower_case_name_counterexample :
  map asciiUpper (js "process.env.api_key") =
    map asciiUpper (js "process.env.API_KEY") /\
  detectScreams plainHost newDetector (js "process.env.api_key") =
    Some ([], newDetector) /\
  detectScreams plainHost newDetector (js "process.env.API_KEY") =
    Some ([js "API_KEY"], newDetector).
Proof. repeat split; vm_compute; reflexivity. Qed.

(** The third pattern, the one with the flag [i], does read a name in lower
    case, and the candidate is its upper-casing. *)
Example third_pattern_ignores_case :
  detectScreams plainHost newDetector
    (js "cannot read property 'x' of undefined at ENV.api_Key") =
  Some ([js "API_KEY"], newDetector).
Proof. vm_compute. reflexivity. Qed.

(** C4 on a new instance. *)
Lemma detectScreams_twice_witness :
  exists suspects d1 d2,
    detectScreams plainHost newDetector (js "Missing FOO and env.BAR") =
      Some (suspects, d1) /\
    detectScreams plainHost d1 (js "Missing FOO and env.BAR") =
      Some (suspects, d2) /\
    d1 = newDetector /\ d2 = newDetector /\
    Forall (fun R => lastIndex R = 0%nat) (envPatterns d1).
Proof.
  exact (detectScreams_twice plainHost newDetector
           (js "Missing FOO and env.BAR") (reach_new plainHost)).
Defined.

(** C6 on the world without files. *)
Lemma api_key_scenario_witness :
  detectScreams plainHost newDetector (js "process.env.API_KEY is undefined") =
    Some ([js "API_KEY"], newDetector) /\
  autopsy plainHost [js "API_KEY"] emptyWorld =
    ([ExistsSync (js "/app/.env")], Return (mkAutopsy [js "API_KEY"] [])).
Proof. exact (api_key_scenario plainHost emptyWorld eq_refl). Defined.

(** C7 on an instance whose second pattern was left with [lastIndex] 3. *)
Lemma candidates_upper_case_witness :
  exists suspects,
    detectScreams plainHost
      (mkDetector [pattern1; setLastIndex pattern2 3; pattern3; pattern4;
                   pattern5])
      (js "env.A env.B") = Some (suspects, newDetector) /\
    forall name,
      In name suspects ->
      name <> [] /\ allOf isUpperOrUnderscore name /\
      toUpperCase plainHost name = name.
Proof.
  exact (candidates_upper_case plainHost
           (mkDetector [pattern1; setLastIndex pattern2 3; pattern3; pattern4;
                        pattern5])
           (js "env.A env.B") eq_refl).
Defined.

(** C9 on the world whose command line has no argument. *)
Lemma usage_without_argument_witness :
  main plainHost emptyWorld =
  ([ConsoleLog (js "Usage: node env-scream-detector.js <logfile>");
    ConsoleLog (js "Example: node env-scream-detector.js error.log");
    ConsoleLog (10 :: js "Pro tip: Your logs are probably screaming right now.")],
   Exit 1%nat).
Proof.
  apply (usage_without_argument plainHost emptyWorld). simpl. lia.
Defined.

(** With and without the first pattern the candidates are the same set, but
    not always in the same order. *)
Example first_pattern_changes_order :
  detectScreams plainHost newDetector (js "env.A process.env.B") =
    Some ([js "B"; js "A"], newDetector) /\
  detectScreams plainHost detectorWithoutPattern1 (js "env.A process.env.B") =
    Some ([js "A"; js "B"], detectorWithoutPattern1).
Proof. split; vm_compute; reflexivity. Qed.

(** A stale [lastIndex] does change what one call returns (the match before
    it is skipped); the call after it starts from 0 again. *)
Example stale_lastIndex :
  detectScreams plainHost
    (mkDetector [pattern1; setLastIndex pattern2 3; pattern3; pattern4;
                 pattern5])
    (js "env.A env.B") = Some ([js "B"], newDetector) /\
  detectScreams plainHost newDetector (js "env.A env.B") =
    Some ([js "A"; js "B"], newDetector).
Proof. split; vm_compute; reflexivity. Qed.

(** ** Closed instances of the further properties *)

(** X1 where [error.log] does not exist. *)
Lemma analyze_missing_log_witness :
  analyze plainHost newDetector (js "error.log") commentedWorld =
  ([ExistsSync (js "error.log");
    ConsoleLog (10060 :: js " Log file not found: error.log");
    ConsoleLog (js "Tip: Try screaming louder next time.")],
   Return tt).
Proof.
  exact (analyze_missing_log plainHost newDetector (js "error.log")
           commentedWorld eq_refl).
Defined.

(** X2 where the log cannot be read. *)
Lemma analyze_unreadable_log_witness :
  analyze plainHost newDetector (js "/app/error.log") brokenLogWorld =
  ([ExistsSync (js "/app/error.log"); ReadFileSync (js "/app/error.log")],
   Throw (js "/app/error.log")).
Proof.
  exact (analyze_unreadable_log plainHost newDetector (js "/app/error.log")
           brokenLogWorld eq_refl).
Defined.

(** X3 where [.env] cannot be read. *)
Lemma analyze_unreadable_env_witness :
  analyze plainHost newDetector (js "/app/error.log") brokenEnvWorld =
  ([ExistsSync (js "/app/error.log"); ReadFileSync (js "/app/error.log");
    ExistsSync (js "/app/.env"); ReadFileSync (js "/app/.env")],
   Throw (js "/app/.env")).
Proof.
  apply (analyze_unreadable_env plainHost newDetector newDetector
           (js "/app/error.log")
           (js "Missing DATABASE_URL; process.env.API_KEY is undefined")
           (js "API_KEY") [js "DATABASE_URL"] brokenEnvWorld);
    vm_compute; reflexivity.
Defined.

(** X4 where the log names two variables and [.env] declares one. *)
Lemma analyze_report_witness :
  analyze plainHost newDetector (js "/app/error.log") reportWorld =
  ([ExistsSync (js "/app/error.log"); ReadFileSync (js "/app/error.log");
    ExistsSync (js "/app/.env"); ReadFileSync (js "/app/.env");
    ConsoleLog (55357 :: 56589 :: js " ENV SCREAM ANALYSIS REPORT");
    ConsoleLog (js "========================================");
    ConsoleLog (10 :: 55357 :: 57000 :: js " MISSING VARIABLES (add to .env):");
    ConsoleLog (js "  - API_KEY=your_value_here");
    ConsoleLog (10 :: 9888 :: 65039 :: js "  MISCONFIGURED (check values in .env):");
    ConsoleLog (js "  - DATABASE_URL");
    ConsoleLog
      (10 :: 55357 :: 56481 ::
         js " Remember: Environment variables should whisper, not scream.")],
   Return tt).
Proof.
  apply (analyze_report plainHost newDetector newDetector
           (js "/app/error.log")
           (js "Missing DATABASE_URL; process.env.API_KEY is undefined")
           (js "API_KEY") [js "DATABASE_URL"] reportWorld);
    [vm_compute; reflexivity | vm_compute; reflexivity | discriminate].
Defined.


(** X8 on two arrays that differ in order and repetition. *)
Lemma classify_same_keys_witness :
  classify [js "A"; js "B"; js "C"] [js "A"; js "B"] =
  classify [js "A"; js "B"; js "C"] [js "B"; js "A"; js "B"].
Proof.
  apply classify_same_keys. intros key. simpl. tauto.
Defined.

(** X9 on a log that mentions no variable. *)
Lemma quiet_log_no_candidates_witness :
  detectScreams plainHost newDetector (js "server started on port 8080") =
  Some ([], newDetector).
Proof.
  exact (quiet_log_no_candidates plainHost (js "server started on port 8080")
           eq_refl).
Defined.

(** X10 on the same log. *)
Lemma analyze_quiet_log_witness :
  analyze plainHost newDetector (js "/app/error.log") quietWorld =
  ([ExistsSync (js "/app/error.log"); ReadFileSync (js "/app/error.log");
    ConsoleLog
      (9989 :: js " No screams detected. Either perfect code or silent suffering.")],
   Return tt).
Proof.
  exact (analyze_quiet_log plainHost (js "/app/error.log")
           (js "server started on port 8080") quietWorld eq_refl eq_refl).
Defined.

(** X11 on a log that names one variable three times. *)
Lemma detectScreams_no_repeats_witness :
  exists suspects,
    detectScreams plainHost newDetector
      (js "env.PORT process.env.PORT Missing PORT") =
      Some (suspects, newDetector) /\
    NoDup suspects.
Proof.
  exact (detectScreams_no_repeats plainHost newDetector
           (js "env.PORT process.env.PORT Missing PORT") eq_refl).
Defined.

(** X12 on [config.env.API_KEY]. *)
Lemma env_name_is_candidate_witness :
  exists suspects,
    detectScreams plainHost newDetector
      (js "at config." ++ js "env." ++ js "API_KEY" ++ js " (app.js:3)") =
      Some (suspects, newDetector) /\
    In (js "API_KEY") suspects.
Proof.
  apply (env_name_is_candidate plainHost (js "at config.") (js "API_KEY")
           (js " (app.js:3)")).
  - discriminate.
  - repeat constructor.
  - reflexivity.
Defined.

(** X13 on [.env] with the line [ database_url = postgres://x]. *)
Lemma padded_key_is_declared_witness :
  exists t result,
    autopsy plainHost [js "API_KEY"; js "DATABASE_URL"] reportWorld =
      (t, Return result) /\
    In (js "DATABASE_URL") (misconfigured result) /\
    ~ In (js "DATABASE_URL") (missing result).
Proof.
  apply (padded_key_is_declared plainHost reportWorld
           [] (js " ") (js "database_url") (js " ") (js " postgres://x") []
           [js "API_KEY"; js "DATABASE_URL"]).
  - reflexivity.
  - left. reflexivity.
  - left. reflexivity.
  - repeat constructor.
  - repeat constructor.
  - repeat constructor.
  - discriminate.
  - vm_compute. intuition discriminate.
  - right. left. reflexivity.
Defined.

(** X14 on [ReferenceError: FOO_BAR is not defined]. *)
Lemma not_defined_name_is_candidate_witness :
  exists suspects,
    detectScreams plainHost newDetector
      (js "ReferenceError: " ++ js "FOO_BAR" ++ js " is not defined" ++ js "!") =
      Some (suspects, newDetector) /\
    In (js "FOO_BAR") suspects.
Proof.
  apply (not_defined_name_is_candidate plainHost (js "ReferenceError: ")
           (js "FOO_BAR") (js "!")).
  - discriminate.
  - repeat constructor.
  - reflexivity.
Defined.

(** X15 on a log with one [Missing NAME]. *)
Lemma first_missing_name_is_candidate_witness :
  exists suspects,
    detectScreams plainHost newDetector
      (js "dotenv: " ++ js "Missing " ++ js "SECRET" ++ js ", aborting") =
      Some (suspects, newDetector) /\
    In (js "SECRET") suspects.
Proof.
  apply (first_missing_name_is_candidate plainHost (js "dotenv: ")
           (js "SECRET") (js ", aborting")).
  - reflexivity.
  - discriminate.
  - repeat constructor.
  - reflexivity.
Defined.

(** A [Missing NAME] that is not the first can be lost: the match before it
    reads the [M] of [Missing] into its name and the search goes on after
    it. *)
Example later_missing_name_lost :
  detectScreams plainHost newDetector (js "Missing AMissing B") =
  Some ([js "AM"], newDetector).
Proof. vm_compute. reflexivity. Qed.
